(** * Journey animator of the around-the-world travel journal

    A shallow embedding of the map logic of the [LeafletMap] component
    (leg resolution, viewport framing, the animation effect) and of the
    stand-alone [useAnimatedJourneyLine] hook of
    [components/AnimatedJourneyLine.tsx].

    Conventions of the embedding:
    - a JavaScript [number] holding a coordinate, a time stamp or a
      progress value is a rational ([Q]) that stands for the binary64
      number nearest to it; the arithmetic of [getMapBounds], whose
      results are compared with thresholds, rounds as binary64 does
      ([Binary64]); elsewhere rounding is idealised away and equalities
      between computed numbers are stated with [==];
    - the cursor [currentTripIndex] is an integer ([Z]), in or out of range;
    - reading a property of [undefined] raises: such reads return
      [TypeError] in the [result] type;
    - the Leaflet map, the objects captured by the closures of an effect
      and the browser's pending callbacks are an explicit [World] that
      every operation threads through. *)

From Stdlib Require Import QArith Qminmax Qabs Lqa SpecFloat.
From stdpp Require Import base option list gmap strings pretty.

Local Open Scope Z_scope.

(** ** Data model (interfaces [Location] and [Trip]) *)

Inductive TripType := ROUND_TRIP | ONE_WAY.

Inductive Transport := PLANE | CAR | TRAIN | BOAT | WALKING.

Record Location := mkLocation {
  loc_id : string;
  name : string;
  city : string;
  country : string;
  latitude : Q;
  longitude : Q
}.

Record Trip := mkTrip {
  id : string;
  title : string;
  type : TripType;
  departureLocation : Location;
  arrivalLocation : Location;
  startDate : string;
  endDate : string;
  transport : Transport;
  travelers : list string;
  notes : option string;
  order : Z
}.

(** A coordinate pair [[latitude, longitude]]. *)
Definition Coord : Type := (Q * Q)%type.

Definition coords_of (l : Location) : Coord := (latitude l, longitude l).

#[global] Instance TripType_eq_dec : EqDecision TripType.
Proof. solve_decision. Defined.

(** ** JavaScript arrays read with an integer index *)

(** [arr[i]]: [undefined] ([None]) outside [0 .. length-1]. *)
Definition js_index {A} (arr : list A) (i : Z) : option A :=
  if decide (0 <= i) then arr !! Z.to_nat i else None.

(** [arr.slice(0, e)]: a negative [e] counts from the end of the array. *)
Definition js_slice0 {A} (arr : list A) (e : Z) : list A :=
  let len := Z.of_nat (length arr) in
  let k := if decide (e < 0) then Z.max (len + e) 0 else Z.min e len in
  take (Z.to_nat k) arr.

(** ** Results of code that may raise *)

Inductive result (A : Type) :=
| Ok (a : A)
| TypeError.
Arguments Ok {A} a.
Arguments TypeError {A}.

(** ** Binary64 arithmetic

    The numbers of JavaScript are IEEE 754 binary64: a basic operation
    returns the exact result rounded to the nearest representable
    number, ties to even.  The rounding is that of the standard
    library's specification of floating-point arithmetic ([SpecFloat],
    with 53 bits of precision and exponents up to 1024).  The model has
    no infinite number and no NaN: where binary64 overflows, the exact
    value is kept. *)

Module Binary64.

Definition prec : Z := 53.
Definition emax : Z := 1024.

(** The rational a finite binary64 number is. *)
Definition value (f : spec_float) : option Q :=
  match f with
  | S754_zero _ => Some 0%Q
  | S754_finite s m e =>
      let magnitude := (inject_Z (Zpos m) * Qpower 2 e)%Q in
      Some (if s then Qopp magnitude else magnitude)
  | S754_infinity _ | S754_nan => None
  end.

(** The binary64 number nearest to a rational: the correctly rounded
    quotient of its numerator by its denominator. *)
Definition nearest (q : Q) : spec_float :=
  let q' := Qred q in
  match Qnum q' with
  | Z0 => S754_zero false
  | Zpos n =>
      SFdiv prec emax (S754_finite false n 0) (S754_finite false (Qden q') 0)
  | Zneg n =>
      SFdiv prec emax (S754_finite true n 0) (S754_finite false (Qden q') 0)
  end.

Definition round (q : Q) : Q :=
  match value (nearest q) with
  | Some r => Qred r
  | None => Qred q
  end.

(** [a + b], [a - b] and [a / b] on numbers ([b] is not 0 where the
    code divides). *)
Definition add (a b : Q) : Q := round (a + b).
Definition sub (a b : Q) : Q := round (a - b).
Definition div (a b : Q) : Q := round (a / b).

End Binary64.

(** ** The rendering surface and the browser's callback queue

    Leaflet layers are objects: a closure keeps a reference to the
    polyline and the marker it created, whether or not they are still on
    the map.  [layers] is the store of the objects, [onMap] the set of
    layers the map currently holds ([map.hasLayer]). *)

(** [Math.atan2(deltaLng, deltaLat) * (180 / Math.PI)], kept by its two
    arguments: the value is not rational in general. *)
Inductive Angle := atan2_degrees (deltaLng deltaLat : Q).

(** The number an [Angle] stands for, for given [Math.atan2], [Math.PI]. *)
Definition angle_value (atan2 : Q → Q → Q) (PI : Q) (a : Angle) : Q :=
  match a with
  | atan2_degrees deltaLng deltaLat => (atan2 deltaLng deltaLat * (180 / PI))%Q
  end.

Inductive LayerKind := PolylineLayer | MarkerLayer.

Record Layer := mkLayer {
  kind : LayerKind;
  className : option string;      (* [options.className] *)
  latlngs : list Coord;           (* a marker holds one position *)
  rotation : option Angle         (* [transform: rotate(..deg)] of the icon *)
}.

(** What the closures of one run of an animation effect captured. *)
Record Run := mkRun {
  startCoords : Coord;
  endCoords : Coord;
  startTime : Z;
  polyline : nat;
  marker : nat
}.

(** The callbacks the two components hand to the browser, by name
    (closures, defunctionalised). *)
Inductive Callback :=
| LeafletMap_start (r : Run)      (* [() => { animate(); }] *)
| LeafletMap_animate (r : Run)    (* [animate] *)
| LeafletMap_hide (r : Run)       (* [() => { if (hasLayer(marker)) ... }] *)
| Hook_animate (r : Run)          (* [animate] of the hook *)
| Hook_hide (r : Run).            (* [() => { map.removeLayer(marker); }] *)

Inductive Source := AnimationFrame | Timer (ms : Z).

Record Pending := mkPending {
  callback : Callback;
  source : Source;
  due : Z
}.

Record World := mkWorld {
  layers : gmap nat Layer;
  onMap : gset nat;
  clock : Z;                      (* [Date.now()], in milliseconds *)
  pending : list Pending;         (* callbacks registered and not yet run *)
  nextId : nat                    (* the next object identity *)
}.

Definition empty_world : World := mkWorld ∅ ∅ 0 [] 0.

(** A small state monad over the [World]. *)
Definition M (A : Type) : Type := World → A * World.

#[global] Instance M_ret : MRet M := λ A a w, (a, w).
#[global] Instance M_bind : MBind M :=
  λ A B f m w, let '(a, w') := m w in f a w'.

Definition exec {A} (m : M A) (w : World) : World := snd (m w).

(** [Date.now()] *)
Definition Date_now : M Z := λ w, (clock w, w).

(** [L.polyline(..).addTo(map)] and [L.marker(..).addTo(map)]: a new
    object, put on the map. *)
Definition addTo (l : Layer) : M nat := λ w,
  let i := nextId w in
  (i, mkWorld (<[i := l]> (layers w)) ({[i]} ∪ onMap w) (clock w)
              (pending w) (S i)).

Definition hasLayer (i : nat) : M bool := λ w,
  (bool_decide (i ∈ onMap w), w).

Definition removeLayer (i : nat) : M unit := λ w,
  (tt, mkWorld (layers w) (onMap w ∖ {[i]}) (clock w) (pending w) (nextId w)).

(** [polyline.setLatLngs] and [marker.setLatLng] change the object; a
    layer that is off the map stays off the map. *)
Definition setLatLngs (i : nat) (cs : list Coord) : M unit := λ w,
  (tt, mkWorld
         (alter (λ l, mkLayer (kind l) (className l) cs (rotation l)) i
                (layers w))
         (onMap w) (clock w) (pending w) (nextId w)).

Definition setLatLng (i : nat) (c : Coord) : M unit := setLatLngs i [c].

Definition schedule (p : Pending) : M unit := λ w,
  (tt, mkWorld (layers w) (onMap w) (clock w) (pending w ++ [p]) (nextId w)).

Definition requestAnimationFrame (cb : Callback) : M unit := λ w,
  schedule (mkPending cb AnimationFrame (clock w)) w.

Definition setTimeout (cb : Callback) (ms : Z) : M unit := λ w,
  schedule (mkPending cb (Timer ms) (clock w + ms)) w.

(** [mapInstance.eachLayer(layer => { if (layer.options?.className ===
    'animated-journey') mapInstance.removeLayer(layer); })] *)
Definition is_animated_journey (ls : gmap nat Layer) (i : nat) : bool :=
  match ls !! i with
  | Some l => bool_decide (className l = Some "animated-journey"%string)
  | None => false
  end.

Definition clear_animated_journey : M unit := λ w,
  (tt, mkWorld (layers w)
         (filter (λ i, is_animated_journey (layers w) i = false) (onMap w))
         (clock w) (pending w) (nextId w)).

(** ** [components/LeafletMap.tsx] *)

Module LeafletMap.

(** ** Leg resolution: [getCurrentJourneyPath] *)

Definition visibleTrips (trips : list Trip) (currentTripIndex : Z) : list Trip :=
  js_slice0 trips (currentTripIndex + 1).

Definition currentTrip (trips : list Trip) (currentTripIndex : Z) : option Trip :=
  js_index trips currentTripIndex.

(** The closure reads [currentTrip], [currentTripIndex] and [visibleTrips]. *)
Definition getCurrentJourneyPath_in
    (currentTrip : option Trip) (currentTripIndex : Z)
    (visibleTrips : list Trip) : list Coord :=
  match currentTrip with
  | None => []
  | Some currentTripData =>
    match type currentTripData with
    | ROUND_TRIP =>
        [ coords_of (departureLocation currentTripData);
          coords_of (arrivalLocation currentTripData) ]
    | ONE_WAY =>
        if decide (currentTripIndex = 0) then
          [ coords_of (departureLocation currentTripData);
            coords_of (arrivalLocation currentTripData) ]
        else
          match js_index visibleTrips (currentTripIndex - 1) with
          | None => []
          | Some previousTrip =>
              let startLocation :=
                match type previousTrip with
                | ROUND_TRIP => departureLocation previousTrip
                | ONE_WAY => arrivalLocation previousTrip
                end in
              [ coords_of startLocation;
                coords_of (arrivalLocation currentTripData) ]
          end
    end
  end.

Definition getCurrentJourneyPath (trips : list Trip) (currentTripIndex : Z)
  : list Coord :=
  getCurrentJourneyPath_in (currentTrip trips currentTripIndex)
    currentTripIndex (visibleTrips trips currentTripIndex).

(** ** Viewport framing: [getMapBounds] *)

Record Viewport := mkViewport {
  center : Coord;
  zoom : Z
}.

Definition default_center : Coord := (39.8283, -98.5795)%Q.

Definition default_viewport : Viewport := mkViewport default_center 4.

(** The zoom ladder of [getMapBounds] ([let zoom = 8; if ... else if ...]). *)
Definition zoomFor (maxDiff : Q) : Z :=
  if Qlt_le_dec 50 maxDiff then 3
  else if Qlt_le_dec 20 maxDiff then 4
  else if Qlt_le_dec 10 maxDiff then 5
  else if Qlt_le_dec 5 maxDiff then 6
  else if Qlt_le_dec 2 maxDiff then 7
  else 8.

(** The spread the zoom is chosen from: [Math.max(latDiff, lngDiff)]. *)
Definition maxDiff_of (startCoords endCoords : Coord) : Q :=
  let lats := (Binary64.round (fst startCoords), Binary64.round (fst endCoords)) in
  let lngs := (Binary64.round (snd startCoords), Binary64.round (snd endCoords)) in
  let minLat := Qmin (fst lats) (snd lats) in
  let maxLat := Qmax (fst lats) (snd lats) in
  let minLng := Qmin (fst lngs) (snd lngs) in
  let maxLng := Qmax (fst lngs) (snd lngs) in
  let latDiff := Binary64.sub maxLat minLat in
  let lngDiff := Binary64.sub maxLng minLng in
  Qmax latDiff lngDiff.

Definition getMapBounds_in (visibleTrips : list Trip)
    (currentJourneyPath : list Coord) : result Viewport :=
  if decide (length visibleTrips = 0%nat) then Ok default_viewport
  else if decide (length currentJourneyPath = 0%nat) then
    match visibleTrips !! 0%nat with
    | None => TypeError
    | Some firstTrip =>
        Ok (mkViewport (coords_of (departureLocation firstTrip)) 8)
    end
  else
    match currentJourneyPath with
    | startCoords :: endCoords :: _ =>
        let lats :=
          (Binary64.round (fst startCoords), Binary64.round (fst endCoords)) in
        let lngs :=
          (Binary64.round (snd startCoords), Binary64.round (snd endCoords)) in
        let minLat := Qmin (fst lats) (snd lats) in
        let maxLat := Qmax (fst lats) (snd lats) in
        let minLng := Qmin (fst lngs) (snd lngs) in
        let maxLng := Qmax (fst lngs) (snd lngs) in
        let centerLat := Binary64.div (Binary64.add minLat maxLat) 2 in
        let centerLng := Binary64.div (Binary64.add minLng maxLng) 2 in
        Ok (mkViewport (centerLat, centerLng)
                       (zoomFor (maxDiff_of startCoords endCoords)))
    | _ => TypeError
    end.

Definition getMapBounds (trips : list Trip) (currentTripIndex : Z)
  : result Viewport :=
  getMapBounds_in (visibleTrips trips currentTripIndex)
                  (getCurrentJourneyPath trips currentTripIndex).

(** ** The journey animation effect *)

Definition animationDuration : Z := 2500.

Definition calculateRotation (start end_ : Coord) : Angle :=
  let deltaLng := (snd end_ - snd start)%Q in
  let deltaLat := (fst end_ - fst start)%Q in
  atan2_degrees deltaLng deltaLat.

Definition interpolateCoords (start end_ : Coord) (progress : Q) : Coord :=
  let lat := (fst start + (fst end_ - fst start) * progress)%Q in
  let lng := (snd start + (snd end_ - snd start) * progress)%Q in
  (lat, lng).

(** [Math.min(elapsed / animationDuration, 1)] *)
Definition animationProgress (startTime now : Z) : Q :=
  let elapsed := now - startTime in
  Qmin (inject_Z elapsed / inject_Z animationDuration) 1.

Definition animate (r : Run) : M unit :=
  now ← Date_now;
  let progress := animationProgress (startTime r) now in
  let currentEndCoord := interpolateCoords (startCoords r) (endCoords r) progress in
  setLatLngs (polyline r) [startCoords r; currentEndCoord];;
  setLatLng (marker r) currentEndCoord;;
  if Qlt_le_dec progress 1 then
    requestAnimationFrame (LeafletMap_animate r)
  else
    setTimeout (LeafletMap_hide r) 800.

(** The callback of the grace-delay timer. *)
Definition hide (r : Run) : M unit :=
  shown ← hasLayer (marker r);
  if shown : bool then removeLayer (marker r) else mret tt.

(** The cleanup function the effect returns. *)
Definition cleanup (r : Run) : M unit :=
  hasPolyline ← hasLayer (polyline r);
  (if hasPolyline : bool then removeLayer (polyline r) else mret tt);;
  hasMarker ← hasLayer (marker r);
  if hasMarker : bool then removeLayer (marker r) else mret tt.

(** The body of the effect. [mapInstance] and [L] tell whether the map
    and the Leaflet module are there; the result is the cleanup closure,
    when the effect returned one. *)
Definition animation_effect (mapInstance L : bool)
    (currentJourneyPath : list Coord) (currentTrip : option Trip)
  : M (option Run) :=
  if mapInstance && L && bool_decide (1 < length currentJourneyPath)%nat
                 && bool_decide (is_Some currentTrip) then
    match currentJourneyPath with
    | startCoords :: endCoords :: _ =>
        clear_animated_journey;;
        startTime ← Date_now;
        let rotation := calculateRotation startCoords endCoords in
        polyline ← addTo (mkLayer PolylineLayer (Some "animated-journey"%string)
                                  [startCoords; startCoords] None);
        marker ← addTo (mkLayer MarkerLayer None [startCoords] (Some rotation));
        let r := mkRun startCoords endCoords startTime polyline marker in
        setTimeout (LeafletMap_start r) 100;;
        mret (Some r)
    | _ => mret None
    end
  else mret None.

(** One activation of the effect by React: the cleanup of the previous
    activation runs first, then the body. *)
Definition activate (previous : option Run) (trips : list Trip)
    (currentTripIndex : Z) (mapInstance L : bool) : M (option Run) :=
  match previous with Some r => cleanup r | None => mret tt end;;
  animation_effect mapInstance L (getCurrentJourneyPath trips currentTripIndex)
                   (currentTrip trips currentTripIndex).

End LeafletMap.

(** ** [components/AnimatedJourneyLine.tsx]: the [useAnimatedJourneyLine] hook *)

Module AnimatedJourneyLine.

Definition animationDuration : Z := 2500.

Definition interpolateCoords (start end_ : Coord) (progress : Q) : Coord :=
  let lat := (fst start + (fst end_ - fst start) * progress)%Q in
  let lng := (snd start + (snd end_ - snd start) * progress)%Q in
  (lat, lng).

Definition animationProgress (startTime now : Z) : Q :=
  let elapsed := now - startTime in
  Qmin (inject_Z elapsed / inject_Z animationDuration) 1.

Definition animate (r : Run) : M unit :=
  now ← Date_now;
  let progress := animationProgress (startTime r) now in
  let currentEndCoord := interpolateCoords (startCoords r) (endCoords r) progress in
  setLatLngs (polyline r) [startCoords r; currentEndCoord];;
  setLatLng (marker r) currentEndCoord;;
  if Qlt_le_dec progress 1 then
    requestAnimationFrame (Hook_animate r)
  else
    setTimeout (Hook_hide r) 500.

Definition hide (r : Run) : M unit := removeLayer (marker r).

Definition cleanup (r : Run) : M unit :=
  removeLayer (polyline r);;
  removeLayer (marker r).

(** [map] and [L] tell whether the map and [window.L] are there. *)
Definition useLeafletComponent (map L : bool)
    (startCoords endCoords : Coord) (isActive : bool) : M (option Run) :=
  if negb map || negb isActive then mret None
  else if negb L then mret None
  else
    polyline ← addTo (mkLayer PolylineLayer None [startCoords; startCoords] None);
    marker ← addTo (mkLayer MarkerLayer None [startCoords] None);
    startTime ← Date_now;
    let r := mkRun startCoords endCoords startTime polyline marker in
    animate r;;
    mret (Some r).

End AnimatedJourneyLine.

(** ** The browser's event loop *)

Definition run_callback (cb : Callback) : M unit :=
  match cb with
  | LeafletMap_start r => LeafletMap.animate r
  | LeafletMap_animate r => LeafletMap.animate r
  | LeafletMap_hide r => LeafletMap.hide r
  | Hook_animate r => AnimatedJourneyLine.animate r
  | Hook_hide r => AnimatedJourneyLine.hide r
  end.

(** The browser runs the [i]-th pending callback, once it is due. *)
Definition fire (i : nat) (w : World) : option World :=
  match pending w !! i with
  | Some p =>
      if decide (due p <= clock w) then
        Some (exec (run_callback (callback p))
                (mkWorld (layers w) (onMap w) (clock w)
                         (delete i (pending w)) (nextId w)))
      else None
  | None => None
  end.

(** Time passes. *)
Definition advance (ms : N) (w : World) : World :=
  mkWorld (layers w) (onMap w) (clock w + Z.of_N ms) (pending w) (nextId w).

Inductive Event := Fire (i : nat) | Advance (ms : N).

(** An event the browser cannot perform (a callback that is not due, an
    index with no callback) leaves the world as it is. *)
Definition step (e : Event) (w : World) : World :=
  match e with
  | Fire i => default w (fire i w)
  | Advance ms => advance ms w
  end.

Definition run_events (es : list Event) (w : World) : World :=
  foldl (λ w e, step e w) w es.

(** ** [app/page.tsx]: the sample journey *)

Module Page.

Definition losAngeles : Location :=
  mkLocation "1" "Los Angeles" "Los Angeles" "United States"
             34.0522%Q (-118.2437)%Q.

Definition lasVegas : Location :=
  mkLocation "2" "Las Vegas" "Las Vegas" "United States"
             36.1699%Q (-115.1398)%Q.

Definition houston : Location :=
  mkLocation "3" "Houston" "Houston" "United States"
             29.7604%Q (-95.3698)%Q.

Definition vegasWeekend : Trip :=
  mkTrip "1" "Vegas Weekend" ROUND_TRIP losAngeles lasVegas
         "2024-02-16" "2024-02-18" PLANE ["You"; "Celia"]%string
         (Some "Amazing weekend on the Strip!"%string) 1.

Definition thanksgivingInHouston : Trip :=
  mkTrip "2" "Thanksgiving in Houston" ONE_WAY losAngeles houston
         "2024-11-21" "2024-11-25" PLANE ["You"; "Celia"]%string
         (Some "Family Thanksgiving"%string) 2.

Definition sampleTrips : list Trip := [vegasWeekend; thanksgivingInHouston].

End Page.

(** The world an effect that starts an animation leaves behind. *)
Definition started (s e : Coord) (w : World) : Run * World :=
  let r := mkRun s e (clock w) (nextId w) (S (nextId w)) in
  (r,
   mkWorld
     (<[S (nextId w) :=
          mkLayer MarkerLayer None [s] (Some (LeafletMap.calculateRotation s e))]>
        (<[nextId w :=
             mkLayer PolylineLayer (Some "animated-journey"%string) [s; s] None]>
           (layers w)))
     ({[S (nextId w)]} ∪
        ({[nextId w]} ∪
           filter (λ i, is_animated_journey (layers w) i = false) (onMap w)))
     (clock w)
     (pending w ++ [mkPending (LeafletMap_start r) (Timer 100) (clock w + 100)])
     (S (S (nextId w)))).

(** ** Vocabulary of the statements *)

(** Two coordinate pairs that denote the same point. *)
Definition coord_eq (a b : Coord) : Prop :=
  (fst a == fst b)%Q ∧ (snd a == snd b)%Q.

(** The mean and the absolute difference of two numbers as binary64
    computes them from the numbers' nearest representable values. *)
Definition mean64 (a b : Q) : Q :=
  Binary64.div (Binary64.add (Binary64.round a) (Binary64.round b)) 2.

Definition distance64 (a b : Q) : Q :=
  Binary64.round (Qabs (Binary64.round a - Binary64.round b)).

(** A journey of one round trip between two points. *)
Definition round_trip_between (departure arrival : Coord) : list Trip :=
  [ mkTrip "" "" ROUND_TRIP
      (mkLocation "" "" "" "" (fst departure) (snd departure))
      (mkLocation "" "" "" "" (fst arrival) (snd arrival))
      "" "" PLANE [] None 1 ].


(** What settling means for an [animate] function, the callback [hide_cb]
    it leaves to the browser, the function [hide] that callback runs and
    a grace delay: called when the animation's duration has elapsed,
    [animate] puts polyline and marker in their final state, takes no
    layer off the map and registers [hide_cb] with the grace delay and
    nothing else; the browser does not run that callback before the delay
    is over; and running it takes the marker off the map and nothing
    else. *)
Definition settles (animate : Run → M unit) (hide_cb : Run → Callback)
    (hide : Run → M unit) (delay : Z) : Prop :=
  ∀ (r : Run) (w : World),
    (startTime r + 2500 <= clock w)%Z →
    let w' := exec (animate r) w in
    let timer := mkPending (hide_cb r) (Timer delay) (clock w + delay)%Z in
    pending w' = pending w ++ [timer] ∧
    onMap w' = onMap w ∧
    (∀ l, layers w !! marker r = Some l →
       ∃ c, latlngs <$> layers w' !! marker r = Some [c] ∧
            coord_eq c (endCoords r)) ∧
    (∀ l, polyline r ≠ marker r → layers w !! polyline r = Some l →
       ∃ c, latlngs <$> layers w' !! polyline r = Some [startCoords r; c] ∧
            coord_eq c (endCoords r)) ∧
    (∀ w'' i, pending w'' !! i = Some timer →
       (clock w'' < clock w + delay)%Z → fire i w'' = None) ∧
    (∀ w'', run_callback (hide_cb r) = hide r ∧
       onMap (exec (hide r) w'') = onMap w'' ∖ {[marker r]} ∧
       layers (exec (hide r) w'') = layers w'').

(** * The rest of the application *)

(** The run a callback's closure belongs to. *)
Definition run_of (cb : Callback) : Run :=
  match cb with
  | LeafletMap_start r | LeafletMap_animate r | LeafletMap_hide r
  | Hook_animate r | Hook_hide r => r
  end.

(** Every layer on the map is an object that was created. *)
Definition layers_allocated (w : World) : Prop :=
  ∀ i, i ∈ onMap w → (i < nextId w)%nat ∧ is_Some (layers w !! i).

(** [arr.includes(x)] on an array of strings. *)
Definition includes (arr : list string) (x : string) : bool :=
  bool_decide (x ∈ arr).

(** ** [components/LeafletMap.tsx]: colours, the view effect, the markers *)

Module LeafletMapView.

Definition getTravelerColor (travelers : list string) : string :=
  if includes travelers "You" && includes travelers "Celia" then "#8B5CF6"
  else if includes travelers "You" then "#3B82F6"
  else if includes travelers "Celia" then "#EC4899"
  else "#6B7280".

(** The effect that follows the cursor: [Some] is the viewport handed to
    [mapInstance.setView], [None] when the effect does nothing; a raised
    error is a [TypeError]. *)
Definition view_effect (mapInstance L : bool) (trips : list Trip)
    (currentTripIndex : Z) : result (option LeafletMap.Viewport) :=
  if mapInstance && L && bool_decide (0 < length trips)%nat then
    match LeafletMap.getMapBounds trips currentTripIndex with
    | Ok bounds => Ok (Some bounds)
    | TypeError => TypeError
    end
  else Ok None.

(** What [createCustomIcon] makes the icon depend on. *)
Record Icon := mkIcon {
  icon_color : string;
  iconSize : Z * Z;
  iconAnchor : Q * Q;
  pulse : bool
}.

Definition createCustomIcon (travelers : list string) (isCurrentTrip : bool)
  : Icon :=
  let color := getTravelerColor travelers in
  let size := if isCurrentTrip then 40 else 30 in
  mkIcon color (size, size) (inject_Z size / 2, inject_Z size / 2)%Q
         isCurrentTrip.

(** A [<Marker>] element: its React key, its position, its icon and the
    coordinates its click handler passes to [onLocationClick]. *)
Record MarkerElement := mkMarkerElement {
  key : string;
  position : Coord;
  icon : Icon;
  click : Q * Q
}.

(** The body of [visibleTrips.map((trip, index) => ...)]. *)
Definition markers_of (currentTripIndex : Z) (index : nat) (trip : Trip)
  : list MarkerElement :=
  let isCurrentTrip := bool_decide (Z.of_nat index = currentTripIndex) in
  let departure :=
    mkMarkerElement (id trip +:+ "-departure")
      (latitude (departureLocation trip), longitude (departureLocation trip))
      (createCustomIcon (travelers trip) isCurrentTrip)
      (longitude (departureLocation trip), latitude (departureLocation trip)) in
  match type trip with
  | ONE_WAY =>
      [ departure;
        mkMarkerElement (id trip +:+ "-arrival")
          (latitude (arrivalLocation trip), longitude (arrivalLocation trip))
          (createCustomIcon (travelers trip) isCurrentTrip)
          (longitude (arrivalLocation trip), latitude (arrivalLocation trip)) ]
  | ROUND_TRIP => [ departure ]
  end.

Definition tripMarkers (trips : list Trip) (currentTripIndex : Z)
  : list MarkerElement :=
  concat (imap (markers_of currentTripIndex)
               (LeafletMap.visibleTrips trips currentTripIndex)).

End LeafletMapView.

(** ** [app/page.tsx]: the state of the page and its handlers

    The trips of the page carry two more fields, [attendees] and [tags],
    that no handler reads or changes; they are not part of [Trip]. *)

Module Home.

Record State := mkState {
  currentTripIndex : Z;
  isPlaying : bool;
  trips : list Trip;
  isAddTripModalOpen : bool
}.

Definition initial : State := mkState 0 false Page.sampleTrips false.

Definition length_of (s : State) : Z := Z.of_nat (length (trips s)).

Definition setCurrentTripIndex (i : Z) (s : State) : State :=
  mkState i (isPlaying s) (trips s) (isAddTripModalOpen s).

Definition setIsPlaying (b : bool) (s : State) : State :=
  mkState (currentTripIndex s) b (trips s) (isAddTripModalOpen s).

Definition setTrips (ts : list Trip) (s : State) : State :=
  mkState (currentTripIndex s) (isPlaying s) ts (isAddTripModalOpen s).

Definition setIsAddTripModalOpen (b : bool) (s : State) : State :=
  mkState (currentTripIndex s) (isPlaying s) (trips s) b.

Definition handleNext (s : State) : State :=
  if decide (currentTripIndex s < length_of s - 1)
  then setCurrentTripIndex (currentTripIndex s + 1) s
  else s.

Definition handlePrevious (s : State) : State :=
  if decide (currentTripIndex s > 0)
  then setCurrentTripIndex (currentTripIndex s - 1) s
  else s.

Definition handlePlayPause (s : State) : State :=
  setIsPlaying (negb (isPlaying s)) s.

Definition handleReset (s : State) : State :=
  setIsPlaying false (setCurrentTripIndex 0 s).

Definition handleKeyPress (key : string) (s : State) : State :=
  if decide (key = "ArrowLeft") then handlePrevious s
  else if decide (key = "ArrowRight") then handleNext s
  else s.

(** [{...trip, id, order}] and [{...trip, order}] *)
Definition with_id_order (t : Trip) (i : string) (o : Z) : Trip :=
  mkTrip i (title t) (type t) (departureLocation t) (arrivalLocation t)
         (startDate t) (endDate t) (transport t) (travelers t) (notes t) o.

Definition with_order (t : Trip) (o : Z) : Trip := with_id_order t (id t) o.

(** [now] is what [Date.now()] returns. *)
Definition handleAddTrip (newTripData : Trip) (now : Z) (s : State) : State :=
  let newTrip :=
    with_id_order newTripData ("trip-" +:+ pretty now) (length_of s + 1) in
  setCurrentTripIndex (length_of s) (setTrips (trips s ++ [newTrip]) s).

Definition handleDeleteTrip (tripId : string) (s : State) : State :=
  let filtered := filter (λ trip, id trip ≠ tripId) (trips s) in
  let renumbered :=
    imap (λ index trip, with_order trip (Z.of_nat index + 1)) filtered in
  let s' := setTrips renumbered s in
  if decide (currentTripIndex s >= length_of s - 1)
  then setCurrentTripIndex (Z.max 0 (length_of s - 2)) s'
  else s'.

(** The play effect arms an interval in these states only. *)
Definition interval_armed (s : State) : bool :=
  isPlaying s && bool_decide (currentTripIndex s < length_of s - 1).

(** The callback of the interval, for the render that armed it. *)
Definition interval_callback (s : State) : State :=
  if decide (currentTripIndex s >= length_of s - 1)
  then setIsPlaying false s
  else setCurrentTripIndex (currentTripIndex s + 1) s.

(** Two seconds pass. *)
Definition tick (s : State) : State :=
  if interval_armed s then interval_callback s else s.

Inductive Action :=
| Next
| Previous
| PlayPause
| Reset
| KeyPress (key : string)
| SelectTrip (index : nat)          (* a click in the list of all trips *)
| AddTrip (newTripData : Trip) (now : Z)
| DeleteTrip (tripId : string)
| OpenModal
| CloseModal
| Tick.

Definition handle (a : Action) (s : State) : State :=
  match a with
  | Next => handleNext s
  | Previous => handlePrevious s
  | PlayPause => handlePlayPause s
  | Reset => handleReset s
  | KeyPress key => handleKeyPress key s
  | SelectTrip index => setCurrentTripIndex (Z.of_nat index) s
  | AddTrip newTripData now => handleAddTrip newTripData now s
  | DeleteTrip tripId => handleDeleteTrip tripId s
  | OpenModal => setIsAddTripModalOpen true s
  | CloseModal => setIsAddTripModalOpen false s
  | Tick => tick s
  end.

(** What the page can do in a state: the list offers the trips there
    are, and the clock does not hand out an identifier twice. *)
Definition offered (a : Action) (s : State) : Prop :=
  match a with
  | SelectTrip index => (index < length (trips s))%nat
  | AddTrip _ now => "trip-" +:+ pretty now ∉ id <$> trips s
  | _ => True
  end.

(** The cursor points at a trip, or the journey is empty and the cursor
    is 0; no two trips share an identifier. *)
Definition cursor_ok (s : State) : Prop :=
  NoDup (id <$> trips s) ∧
  (0 <= currentTripIndex s < length_of s ∨
   (trips s = [] ∧ currentTripIndex s = 0)).

(** The trips are numbered 1, 2, ... in the order of the list. *)
Definition numbered (ts : list Trip) : Prop :=
  ∀ (i : nat) t, ts !! i = Some t → order t = Z.of_nat i + 1.

(** A session: the actions of the user and of the clock, in order. *)
Fixpoint run (acts : list Action) (s : State) : State :=
  match acts with
  | [] => s
  | a :: acts => run acts (handle a s)
  end.

Fixpoint all_offered (acts : list Action) (s : State) : Prop :=
  match acts with
  | [] => True
  | a :: acts => offered a s ∧ all_offered acts (handle a s)
  end.

End Home.

(** ** [components/TimelineControls.tsx] *)

Module TimelineControls.

Definition progress (currentIndex totalTrips : Z) : Q :=
  if decide (totalTrips > 0)
  then (inject_Z (currentIndex + 1) / inject_Z totalTrips * 100)%Q
  else 0%Q.

Definition reset_disabled (currentIndex : Z) : bool :=
  bool_decide (currentIndex = 0).

Definition previous_disabled (currentIndex : Z) : bool :=
  bool_decide (currentIndex <= 0).

Definition playPause_disabled (totalTrips : Z) : bool :=
  bool_decide (totalTrips = 0).

Definition next_disabled (currentIndex totalTrips : Z) : bool :=
  bool_decide (currentIndex >= totalTrips - 1).

End TimelineControls.

(** ** [components/SimpleWorldMap.tsx] *)

Module SimpleWorldMap.


End SimpleWorldMap.

(** ** [components/AddTripModal.tsx] *)

Module AddTripModal.

Definition toggleTraveler (traveler : string) (travelers : list string)
  : list string :=
  if includes travelers traveler
  then filter (λ t, t ≠ traveler) travelers
  else travelers ++ [traveler].

End AddTripModal.

(** * Properties *)

Import LeafletMap.

(** ** Arrays *)

Lemma js_index_in_range {A} (arr : list A) (i : Z) :
  0 <= i < Z.of_nat (length arr) → js_index arr i = arr !! Z.to_nat i.
Proof. intros Hi. unfold js_index. case_decide; [done | lia]. Qed.

Lemma js_index_Some {A} (arr : list A) (i : Z) (x : A) :
  js_index arr i = Some x ↔ 0 <= i ∧ arr !! Z.to_nat i = Some x.
Proof.
  unfold js_index. case_decide.
  - split; [by intros ? | by intros [_ ?]].
  - split; [done | by intros [? _]].
Qed.

Lemma js_index_None {A} (arr : list A) (i : Z) :
  js_index arr i = None ↔ ¬ (0 <= i < Z.of_nat (length arr)).
Proof.
  unfold js_index. case_decide as Hi.
  - rewrite lookup_ge_None. lia.
  - split; [lia | done].
Qed.

Lemma js_slice0_nonneg {A} (arr : list A) (e : Z) :
  0 <= e → js_slice0 arr e = take (Z.to_nat e) arr.
Proof.
  intros He. unfold js_slice0. case_decide; [lia |].
  destruct (Z.min_spec e (Z.of_nat (length arr))) as [[Hlt ->] | [Hle ->]].
  - done.
  - rewrite Nat2Z.id, firstn_all. symmetry. apply take_ge. lia.
Qed.

Lemma visibleTrips_in_range (trips : list Trip) (idx : Z) :
  0 <= idx → visibleTrips trips idx = take (S (Z.to_nat idx)) trips.
Proof.
  intros Hi. unfold visibleTrips. rewrite js_slice0_nonneg by lia.
  f_equal. lia.
Qed.

Lemma visibleTrips_previous (trips : list Trip) (idx : Z) :
  0 < idx →
  js_index (visibleTrips trips idx) (idx - 1) = trips !! Z.to_nat (idx - 1).
Proof.
  intros Hi. rewrite visibleTrips_in_range by lia.
  unfold js_index. case_decide; [| lia].
  apply lookup_take_lt. lia.
Qed.

Lemma visibleTrips_empty_journey (idx : Z) : visibleTrips [] idx = [].
Proof. unfold visibleTrips, js_slice0. by rewrite take_nil. Qed.

(** ** Leg resolution *)

Lemma path_empty_iff (trips : list Trip) (idx : Z) :
  getCurrentJourneyPath trips idx = [] ↔
  ¬ (0 <= idx < Z.of_nat (length trips)).
Proof.
  rewrite <- js_index_None.
  unfold getCurrentJourneyPath, getCurrentJourneyPath_in, currentTrip.
  destruct (js_index trips idx) as [cur |] eqn:Hcur; [| done].
  split; [| done]. intros Hpath. exfalso.
  apply js_index_Some in Hcur as [Hi Hcur].
  destruct (type cur); [done |].
  case_decide; [done |].
  rewrite visibleTrips_previous in Hpath by lia.
  destruct (trips !! Z.to_nat (idx - 1)) as [prev |] eqn:Hprev; [done |].
  apply lookup_ge_None in Hprev. apply lookup_lt_Some in Hcur. lia.
Qed.

Lemma path_length (trips : list Trip) (idx : Z) :
  length (getCurrentJourneyPath trips idx) = 0%nat ∨
  ∃ s e, getCurrentJourneyPath trips idx = [s; e].
Proof.
  unfold getCurrentJourneyPath, getCurrentJourneyPath_in.
  destruct (currentTrip trips idx) as [cur |]; [| by left].
  destruct (type cur); [right; eauto |].
  case_decide; [right; eauto |].
  destruct (js_index _ _); [right; eauto | by left].
Qed.

(** C1. For a non-empty journey and a cursor in range: the leg of a
    ROUND_TRIP, or of the trip at cursor 0, is (its departure, its
    arrival); the leg of a ONE_WAY trip at a cursor > 0 starts at the
    previous trip's arrival when that trip is ONE_WAY, at the previous
    trip's departure when it is a ROUND_TRIP, and ends at the current
    trip's arrival. *)
Theorem leg_resolution (trips : list Trip) (idx : Z) :
  trips ≠ [] →
  0 <= idx < Z.of_nat (length trips) →
  ∃ cur, trips !! Z.to_nat idx = Some cur ∧
    (type cur = ROUND_TRIP ∨ idx = 0 →
       getCurrentJourneyPath trips idx =
         [coords_of (departureLocation cur); coords_of (arrivalLocation cur)]) ∧
    (type cur = ONE_WAY → 0 < idx →
       ∃ prev, trips !! Z.to_nat (idx - 1) = Some prev ∧
         (type prev = ONE_WAY →
            getCurrentJourneyPath trips idx =
              [coords_of (arrivalLocation prev);
               coords_of (arrivalLocation cur)]) ∧
         (type prev = ROUND_TRIP →
            getCurrentJourneyPath trips idx =
              [coords_of (departureLocation prev);
               coords_of (arrivalLocation cur)])).
Proof.
  intros _ Hidx.
  destruct (lookup_lt_is_Some_2 trips (Z.to_nat idx)) as [cur Hcur]; [lia |].
  exists cur. split; [done |].
  unfold getCurrentJourneyPath, getCurrentJourneyPath_in, currentTrip.
  rewrite js_index_in_range, Hcur by done. split.
  - intros [Hrt | ->].
    + by rewrite Hrt.
    + destruct (type cur); [done |]. by case_decide.
  - intros Hty Hpos. rewrite Hty. case_decide; [lia |].
    rewrite visibleTrips_previous by done.
    destruct (lookup_lt_is_Some_2 trips (Z.to_nat (idx - 1))) as [prev Hprev];
      [lia |].
    exists prev. rewrite Hprev. split; [done |].
    split; intros ->; done.
Qed.

Lemma leg_resolution_witness :
  ∃ cur, Page.sampleTrips !! Z.to_nat 1 = Some cur ∧
    (type cur = ROUND_TRIP ∨ 1 = 0 →
       getCurrentJourneyPath Page.sampleTrips 1 =
         [coords_of (departureLocation cur); coords_of (arrivalLocation cur)]) ∧
    (type cur = ONE_WAY → 0 < 1 →
       ∃ prev, Page.sampleTrips !! Z.to_nat (1 - 1) = Some prev ∧
         (type prev = ONE_WAY →
            getCurrentJourneyPath Page.sampleTrips 1 =
              [coords_of (arrivalLocation prev);
               coords_of (arrivalLocation cur)]) ∧
         (type prev = ROUND_TRIP →
            getCurrentJourneyPath Page.sampleTrips 1 =
              [coords_of (departureLocation prev);
               coords_of (arrivalLocation cur)])).
Proof.
  apply (leg_resolution Page.sampleTrips 1).
  - discriminate.
  - simpl. lia.
Defined.

(** ** Viewport framing *)

Local Open Scope Q_scope.

Lemma zoomFor_compat (a b : Q) : a == b → zoomFor a = zoomFor b.
Proof.
  intros Hab. unfold zoomFor.
  repeat match goal with
  | |- context [Qlt_le_dec ?x ?y] => destruct (Qlt_le_dec x y)
  end; solve [reflexivity | lra].
Qed.

Lemma max_minus_min (a c : Q) : Qmax a c - Qmin a c == Qabs (a - c).
Proof.
  destruct (Q.max_spec a c) as [[? ->] | [? ->]];
  destruct (Q.min_spec a c) as [[? ->] | [? ->]];
  first [ rewrite Qabs_pos by lra | rewrite Qabs_neg by lra ]; lra.
Qed.

Lemma min_plus_max (a b : Q) : Qmin a b + Qmax a b == a + b.
Proof.
  destruct (Q.max_spec a b) as [[? ->] | [? ->]];
  destruct (Q.min_spec a b) as [[? ->] | [? ->]]; lra.
Qed.

(** Rounding sees the number, not the fraction that writes it. *)
Lemma round_compat (a b : Q) : a == b → Binary64.round a = Binary64.round b.
Proof.
  intros Hab. unfold Binary64.round, Binary64.nearest.
  by rewrite (Qred_complete a b Hab).
Qed.

(** Binary64 subtraction and addition at the leg 4.4 - 2.4 and at
    60.1 - 10.1, where rounding decides the zoom, and at the sample
    journey: the rounded exact result is what the operations of
    [SpecFloat] return on the nearest binary64 numbers. *)
Lemma binary64_operations_agree :
  Binary64.value (SFsub 53 1024 (Binary64.nearest 4.4) (Binary64.nearest 2.4))
    = Some (4503599627370497 # 2251799813685248) ∧
  Binary64.sub (Binary64.round 4.4) (Binary64.round 2.4)
    = 4503599627370497 # 2251799813685248 ∧
  option_map Qred
    (Binary64.value
       (SFsub 53 1024 (Binary64.nearest 60.1) (Binary64.nearest 10.1)))
    = Some 50 ∧
  Binary64.sub (Binary64.round 60.1) (Binary64.round 10.1) = 50 ∧
  option_map Qred
    (Binary64.value
       (SFadd 53 1024 (Binary64.nearest 34.0522) (Binary64.nearest 29.7604)))
    = Some (Binary64.add (Binary64.round 34.0522) (Binary64.round 29.7604)) ∧
  Binary64.nearest 0.1 = S754_finite false 7205759403792794 (-56).
Proof. by vm_compute. Qed.

(** The spread of the source ([max - min] per axis, each difference
    rounded) is the larger of the two rounded absolute differences. *)
Lemma maxDiff_of_distance (s e : Coord) :
  maxDiff_of s e =
    Qmax (distance64 (fst s) (fst e)) (distance64 (snd s) (snd e)).
Proof.
  unfold maxDiff_of, distance64, Binary64.sub. simpl.
  by rewrite !(round_compat _ _ (max_minus_min _ _)).
Qed.

Lemma mean_of_min_max (a b : Q) :
  Binary64.div (Binary64.add (Qmin a b) (Qmax a b)) 2 =
    Binary64.div (Binary64.add a b) 2.
Proof.
  unfold Binary64.add. by rewrite (round_compat _ _ (min_plus_max a b)).
Qed.

Lemma zoomFor_ladder (spread : Q) :
  (50 < spread → zoomFor spread = 3%Z) ∧
  (20 < spread ∧ spread <= 50 → zoomFor spread = 4%Z) ∧
  (10 < spread ∧ spread <= 20 → zoomFor spread = 5%Z) ∧
  (5 < spread ∧ spread <= 10 → zoomFor spread = 6%Z) ∧
  (2 < spread ∧ spread <= 5 → zoomFor spread = 7%Z) ∧
  (spread <= 2 → zoomFor spread = 8%Z).
Proof.
  unfold zoomFor.
  repeat match goal with
  | |- context [Qlt_le_dec ?x ?y] => destruct (Qlt_le_dec x y)
  end; repeat split; intros; solve [reflexivity | lra].
Qed.

Lemma zoomFor_range (spread : Q) : (3 <= zoomFor spread <= 8)%Z.
Proof.
  unfold zoomFor.
  repeat match goal with
  | |- context [Qlt_le_dec ?x ?y] => destruct (Qlt_le_dec x y)
  end; lia.
Qed.

Lemma visible_when_resolved (trips : list Trip) (idx : Z) :
  getCurrentJourneyPath trips idx ≠ [] → visibleTrips trips idx ≠ [].
Proof.
  intros Hin Hvis. rewrite path_empty_iff in Hin. apply dec_stable in Hin.
  rewrite visibleTrips_in_range in Hvis by lia.
  destruct trips; [simpl in Hin; lia | done].
Qed.

Lemma getMapBounds_leg (trips : list Trip) (idx : Z) (s e : Coord) :
  getCurrentJourneyPath trips idx = [s; e] →
  getMapBounds trips idx =
    Ok (mkViewport (mean64 (fst s) (fst e), mean64 (snd s) (snd e))
                   (zoomFor (maxDiff_of s e))).
Proof.
  intros Hpath.
  assert (Hvis : visibleTrips trips idx ≠ [])
    by (apply visible_when_resolved; by rewrite Hpath).
  unfold getMapBounds, getMapBounds_in. rewrite Hpath.
  case_decide as Hlen; [by apply length_zero_iff_nil in Hlen |].
  simpl. unfold mean64. by rewrite !mean_of_min_max.
Qed.

(** C2, as stated, fails where rounding decides the zoom.  For a leg
    between the binary64 latitudes nearest to 60.1 and 10.1 the exact
    spread is above 50, which the claim maps to zoom 3, and the code,
    whose subtraction rounds to 50, returns zoom 4; for the leg from
    latitude 2.4 to 4.4 the spread of the written coordinates is 2,
    which the claim maps to zoom 8, and the code returns zoom 7. *)
Lemma viewport_framing_counterexample :
  (∃ v, getMapBounds (round_trip_between (60.1, 0) (10.1, 0)) 0 = Ok v ∧
        50 < Qmax (Qabs (Binary64.round 60.1 - Binary64.round 10.1))
                  (Qabs (0 - 0)) ∧
        zoom v = 4%Z) ∧
  (∃ v, getMapBounds (round_trip_between (2.4, 0) (4.4, 0)) 0 = Ok v ∧
        Qmax (Qabs (2.4 - 4.4)) (Qabs (0 - 0)) <= 2 ∧
        zoom v = 7%Z).
Proof. split; eexists; by vm_compute. Qed.

(** C2, amended. An empty journey is framed by the fixed default centre
    and zoom.  When a leg is resolved, the centre is the coordinate-wise
    mean of the leg's two endpoints as binary64 computes it (the sum
    rounded, then halved) and the zoom follows from the spread as
    binary64 computes it, the larger of the two rounded absolute
    coordinate differences, by the strict thresholds >50: 3, >20: 4,
    >10: 5, >5: 6, >2: 7, otherwise 8, a rounded spread that sits on a
    threshold taking the larger zoom. *)
Theorem viewport_framing :
  (∀ idx, getMapBounds [] idx = Ok default_viewport ∧
          default_viewport = mkViewport (39.8283, -98.5795) 4) ∧
  (∀ trips idx s e,
     getCurrentJourneyPath trips idx = [s; e] →
     ∃ v, getMapBounds trips idx = Ok v ∧
       center v = (mean64 (fst s) (fst e), mean64 (snd s) (snd e)) ∧
       let spread :=
         Qmax (distance64 (fst s) (fst e)) (distance64 (snd s) (snd e)) in
       (50 < spread → zoom v = 3%Z) ∧
       (20 < spread ∧ spread <= 50 → zoom v = 4%Z) ∧
       (10 < spread ∧ spread <= 20 → zoom v = 5%Z) ∧
       (5 < spread ∧ spread <= 10 → zoom v = 6%Z) ∧
       (2 < spread ∧ spread <= 5 → zoom v = 7%Z) ∧
       (spread <= 2 → zoom v = 8%Z)).
Proof.
  split.
  - intros idx. split; [| done].
    unfold getMapBounds, getMapBounds_in.
    by rewrite visibleTrips_empty_journey.
  - intros trips idx s e Hpath.
    eexists. split; [by apply getMapBounds_leg |]. simpl.
    split; [done |]. rewrite maxDiff_of_distance.
    apply zoomFor_ladder.
Qed.

Lemma viewport_framing_witness :
  ∃ v, getMapBounds Page.sampleTrips 1 = Ok v ∧
       center v = (mean64 34.0522 29.7604, mean64 (-118.2437) (-95.3698)) ∧
       zoom v = 4%Z.
Proof.
  destruct (proj2 viewport_framing Page.sampleTrips 1%Z
              (34.0522, -118.2437) (29.7604, -95.3698) eq_refl)
    as (v & Hv & Hcenter & _ & H4 & _).
  exists v. repeat split; [exact Hv | exact Hcenter |].
  apply H4. vm_compute. split; [reflexivity | discriminate].
Defined.

(** C4. The zoom never grows with the spread: for non-negative spreads
    s1 < s2, zoomFor s1 >= zoomFor s2; spreads 0, 3, 6, 15, 25 and 60
    give the zooms 8, 7, 6, 5, 4 and 3. *)
Theorem zoom_monotone :
  (∀ s1 s2, 0 <= s1 → s1 < s2 → (zoomFor s1 >= zoomFor s2)%Z) ∧
  zoomFor 0 = 8%Z ∧ zoomFor 3 = 7%Z ∧ zoomFor 6 = 6%Z ∧
  zoomFor 15 = 5%Z ∧ zoomFor 25 = 4%Z ∧ zoomFor 60 = 3%Z.
Proof.
  split; [| by vm_compute].
  intros s1 s2 _ Hlt. unfold zoomFor.
  repeat match goal with
  | |- context [Qlt_le_dec ?x ?y] => destruct (Qlt_le_dec x y)
  end; solve [lia | lra].
Qed.

Lemma zoom_monotone_witness : (zoomFor 4 >= zoomFor 17)%Z.
Proof.
  apply (proj1 zoom_monotone 4 17).
  - vm_compute. discriminate.
  - reflexivity.
Defined.

Lemma getMapBounds_cases (trips : list Trip) (idx : Z) :
  (visibleTrips trips idx = [] ∧ getCurrentJourneyPath trips idx = [] ∧
   getMapBounds trips idx = Ok default_viewport) ∨
  (∃ first rest, visibleTrips trips idx = first :: rest ∧
     getCurrentJourneyPath trips idx = [] ∧
     getMapBounds trips idx =
       Ok (mkViewport (coords_of (departureLocation first)) 8)) ∨
  (∃ s e, getCurrentJourneyPath trips idx = [s; e] ∧
     getMapBounds trips idx =
       Ok (mkViewport (mean64 (fst s) (fst e), mean64 (snd s) (snd e))
                      (zoomFor (maxDiff_of s e)))).
Proof.
  destruct (path_length trips idx) as [Hnil | (s & e & Hpath)].
  - apply length_zero_iff_nil in Hnil.
    unfold getMapBounds, getMapBounds_in. rewrite Hnil.
    case_decide as Hvis.
    + left. by apply length_zero_iff_nil in Hvis.
    + right; left.
      destruct (visibleTrips trips idx) as [| first rest]; [done |].
      by exists first, rest.
  - right; right. exists s, e. split; [done | by apply getMapBounds_leg].
Qed.

(** C10. For every journey and every cursor, the viewport computation
    returns a zoom between 3 and 8: 4 for the default, 8 when no leg is
    resolved, and a value of the ladder otherwise. *)
Theorem zoom_in_range (trips : list Trip) (idx : Z) :
  ∃ v, getMapBounds trips idx = Ok v ∧ (3 <= zoom v <= 8)%Z ∧
       zoom default_viewport = 4%Z ∧
       (visibleTrips trips idx ≠ [] →
        getCurrentJourneyPath trips idx = [] → zoom v = 8%Z) ∧
       (∀ s e, getCurrentJourneyPath trips idx = [s; e] →
               zoom v = zoomFor (maxDiff_of s e)).
Proof.
  destruct (getMapBounds_cases trips idx)
    as [(Hvis & Hpath & ->) | [(first & rest & Hvis & Hpath & ->)
                                | (s & e & Hpath & ->)]];
    eexists; (split; [reflexivity |]); simpl.
  - split; [lia |]. split; [done |]. split; [done |].
    intros s e. by rewrite Hpath.
  - split; [lia |]. split; [done |]. split; [done |].
    intros s e. by rewrite Hpath.
  - split; [apply zoomFor_range |]. split; [done |].
    rewrite Hpath. split; [discriminate |].
    by intros s' e' [= <- <-].
Qed.

Lemma zoom_in_range_witness :
  ∃ v, getMapBounds Page.sampleTrips 0 = Ok v ∧ (3 <= zoom v <= 8)%Z.
Proof.
  destruct (zoom_in_range Page.sampleTrips 0) as (v & Hv & Hz & _).
  exists v. split; [exact Hv | exact Hz].
Defined.

(** ** The sample journey of the page *)

(** C5, as stated, fails on the midpoint: for the journey [Los Angeles
    <-> Las Vegas (round trip), Los Angeles -> Houston (one way)] and
    cursor 1 the centre of the viewport is not within 0.1 degree of
    (32.39, -106.96), in latitude or in longitude. *)
Lemma example_midpoint_counterexample :
  ∃ v, getMapBounds Page.sampleTrips 1 = Ok v ∧
       ¬ Qabs (fst (center v) - 32.39) <= 0.1 ∧
       ¬ Qabs (snd (center v) - -106.96) <= 0.1.
Proof.
  eexists. split; [reflexivity |].
  split; intros H; vm_compute in H; by apply H.
Qed.

(** C5, amended. For that journey and cursor 1 the leg starts at Los
    Angeles (34.0522, -118.2437), the departure of the round trip before
    it, and ends at Houston (29.7604, -95.3698); the centre of the
    viewport is (31.9063, -106.80675) up to the rounding of binary64
    (2245206262355801 / 2^46 and -3757928433598857 / 2^45, less than
    10^-13 away); the coordinate differences are 4.2918 and 22.8739, so
    the spread is 22.8739 up to rounding (1609607617445469 / 2^46) and
    the zoom is 4. *)
Theorem example_end_to_end :
  (∃ tripA tripB, Page.sampleTrips = [tripA; tripB] ∧
     type tripA = ROUND_TRIP ∧ type tripB = ONE_WAY ∧
     departureLocation tripA = Page.losAngeles ∧
     arrivalLocation tripA = Page.lasVegas ∧
     departureLocation tripB = Page.losAngeles ∧
     arrivalLocation tripB = Page.houston) ∧
  getCurrentJourneyPath Page.sampleTrips 1 =
    [(34.0522, -118.2437); (29.7604, -95.3698)] ∧
  ∃ v, getMapBounds Page.sampleTrips 1 = Ok v ∧
       fst (center v) == 2245206262355801 # 70368744177664 ∧
       snd (center v) == -3757928433598857 # 35184372088832 ∧
       Qabs (fst (center v) - 31.9063) <= 1 # 10000000000000 ∧
       Qabs (snd (center v) - -106.80675) <= 1 # 10000000000000 ∧
       Qabs (34.0522 - 29.7604) == 4.2918 ∧
       Qabs (-118.2437 - -95.3698) == 22.8739 ∧
       maxDiff_of (34.0522, -118.2437) (29.7604, -95.3698)
         == 1609607617445469 # 70368744177664 ∧
       Qabs (maxDiff_of (34.0522, -118.2437) (29.7604, -95.3698) - 22.8739)
         <= 1 # 10000000000000 ∧
       zoom v = 4%Z.
Proof.
  split; [by eexists _, _ |]. split; [reflexivity |].
  eexists. split; [reflexivity |]. by vm_compute.
Qed.

(** ** Fallbacks *)

Lemma getMapBounds_total (trips : list Trip) (idx : Z) :
  ∃ v, getMapBounds trips idx = Ok v.
Proof.
  destruct (getMapBounds_cases trips idx)
    as [(_ & _ & ->) | [(first & rest & _ & _ & ->) | (s & e & _ & ->)]];
    eauto.
Qed.

Lemma animation_effect_no_path (mapInstance L : bool) (cur : option Trip)
    (w : World) :
  animation_effect mapInstance L [] cur w = (None, w).
Proof. unfold animation_effect. simpl. by rewrite andb_false_r. Qed.

(** C9, as stated, fails for a cursor that leaves no trip visible: the
    sample journey is not empty and cursor -1 resolves no leg, yet the
    viewport is the default one, with zoom 4 and not 8. *)
Lemma fallback_counterexample :
  Page.sampleTrips ≠ [] ∧
  getCurrentJourneyPath Page.sampleTrips (-1) = [] ∧
  visibleTrips Page.sampleTrips (-1) = [] ∧
  getMapBounds Page.sampleTrips (-1) = Ok default_viewport ∧
  zoom default_viewport ≠ 8%Z.
Proof. by repeat split. Qed.

(** C9, amended. Leg resolution and viewport computation return a value
    for every journey and every cursor, never raising; no leg is
    resolved exactly when the cursor is out of range; with no trip
    visible (an empty journey, or a negative cursor that empties the
    visible prefix) the viewport is the default one; with a trip visible
    and no leg resolved, the viewport is centred on the first visible
    trip's departure with zoom 8; and with no leg resolved the animation
    effect does nothing. *)
Theorem safe_fallbacks (trips : list Trip) (idx : Z) :
  (∃ v, getMapBounds trips idx = Ok v) ∧
  (getCurrentJourneyPath trips idx = [] ↔
     ¬ (0 <= idx < Z.of_nat (length trips))%Z) ∧
  (visibleTrips trips idx = [] → getMapBounds trips idx = Ok default_viewport) ∧
  (∀ first rest,
     visibleTrips trips idx = first :: rest →
     getCurrentJourneyPath trips idx = [] →
     getMapBounds trips idx =
       Ok (mkViewport (coords_of (departureLocation first)) 8)) ∧
  (getCurrentJourneyPath trips idx = [] →
   ∀ mapInstance L w,
     animation_effect mapInstance L (getCurrentJourneyPath trips idx)
                      (currentTrip trips idx) w = (None, w)).
Proof.
  split; [apply getMapBounds_total |].
  split; [apply path_empty_iff |].
  unfold getMapBounds, getMapBounds_in. repeat split.
  - by intros ->.
  - by intros first rest -> ->.
  - intros -> mapInstance L w. apply animation_effect_no_path.
Qed.

Lemma safe_fallbacks_witness :
  getMapBounds Page.sampleTrips 7 =
    Ok (mkViewport (coords_of Page.losAngeles) 8) ∧
  getMapBounds Page.sampleTrips (-1) = Ok default_viewport.
Proof.
  split.
  - apply (proj1 (proj2 (proj2 (proj2 (safe_fallbacks Page.sampleTrips 7))))
             Page.vegasWeekend [Page.thanksgivingInHouston]); reflexivity.
  - apply (proj1 (proj2 (proj2 (safe_fallbacks Page.sampleTrips (-1)))));
      reflexivity.
Defined.

(** ** The animation: what callbacks and effects do to the world *)

Local Open Scope Z_scope.

#[local] Set Warnings "-clear-no-such-hyp".

Ltac unfold_world :=
  unfold exec, run_callback, LeafletMap.animate, LeafletMap.hide,
    LeafletMap.cleanup, AnimatedJourneyLine.animate, AnimatedJourneyLine.hide,
    AnimatedJourneyLine.cleanup, setTimeout, requestAnimationFrame, schedule,
    setLatLng, setLatLngs, removeLayer, hasLayer, addTo, Date_now,
    clear_animated_journey, mbind, M_bind, mret, M_ret in *.

(** Callbacks allocate nothing, never put a layer on the map, leave
    the clock alone and only add to the pending callbacks. *)
Lemma callback_frame (cb : Callback) (w : World) :
  let w' := exec (run_callback cb) w in
  onMap w' ⊆ onMap w ∧ nextId w' = nextId w ∧ clock w' = clock w ∧
  (∃ ps, pending w' = pending w ++ ps) ∧
  (∀ i, rotation <$> layers w' !! i = rotation <$> layers w !! i).
Proof.
  assert (Halter : ∀ (ls : gmap nat Layer) j cs i,
    rotation <$> alter (λ l, mkLayer (kind l) (className l) cs (rotation l)) j ls !! i
    = rotation <$> ls !! i).
  { intros ls j cs i. rewrite lookup_alter. case_decide; [subst |]; [| done].
    by destruct (ls !! i). }
  destruct cb; unfold_world; simpl;
    repeat match goal with
    | |- context [Qlt_le_dec ?x ?y] => destruct (Qlt_le_dec x y); simpl
    | |- context [bool_decide ?P] => destruct (bool_decide P); simpl
    end;
    (split; [set_solver |]); (split; [done |]); (split; [done |]);
    (split; [first [by eexists | by exists []; rewrite app_nil_r] |]);
    intros i; rewrite ?Halter; done.
Qed.

Lemma step_frame (e : Event) (w : World) :
  onMap (step e w) ⊆ onMap w ∧ nextId (step e w) = nextId w ∧
  clock w <= clock (step e w) ∧
  (∀ i, rotation <$> layers (step e w) !! i = rotation <$> layers w !! i).
Proof.
  destruct e as [i | ms]; simpl; [| repeat split; [done | lia]].
  unfold fire. destruct (pending w !! i) as [p |]; simpl; [| done].
  case_decide; simpl; [| done].
  pose proof (callback_frame (callback p)
    (mkWorld (layers w) (onMap w) (clock w) (delete i (pending w)) (nextId w)))
    as (Hon & Hid & Hclock & _ & Hrot).
  simpl in *. repeat split; [done | done | lia | done].
Qed.

Lemma run_events_frame (es : list Event) (w : World) :
  onMap (run_events es w) ⊆ onMap w ∧ nextId (run_events es w) = nextId w ∧
  clock w <= clock (run_events es w) ∧
  (∀ i, rotation <$> layers (run_events es w) !! i = rotation <$> layers w !! i).
Proof.
  revert w. induction es as [| e es IH]; intros w; simpl; [done |].
  destruct (IH (step e w)) as (Hon & Hid & Hclock & Hrot).
  destruct (step_frame e w) as (Hon' & Hid' & Hclock' & Hrot').
  repeat split.
  - set_solver.
  - congruence.
  - lia.
  - intros i. by rewrite Hrot.
Qed.

Lemma animation_effect_cases (mapInstance L : bool) (path : list Coord)
    (cur : option Trip) (w : World) :
  animation_effect mapInstance L path cur w = (None, w) ∨
  ∃ s e rest, path = s :: e :: rest ∧
    animation_effect mapInstance L path cur w =
      (Some (fst (started s e w)), snd (started s e w)).
Proof.
  unfold animation_effect.
  destruct (mapInstance && L && _ && _); [| by left].
  destruct path as [| s [| e rest]]; [by left | by left |].
  right. by exists s, e, rest.
Qed.

Lemma cleanup_removes (r : Run) (w : World) :
  exec (LeafletMap.cleanup r) w =
    mkWorld (layers w) (onMap w ∖ {[polyline r]} ∖ {[marker r]}) (clock w)
            (pending w) (nextId w).
Proof.
  assert (Hout : ∀ (X : gset nat) i, i ∉ X → X ∖ {[i]} = X) by set_solver.
  destruct w as [ls shown now ps n]. unfold_world. simpl.
  destruct (bool_decide_reflect (polyline r ∈ shown)) as [Hp | Hp]; simpl.
  - destruct (bool_decide_reflect (marker r ∈ shown ∖ {[polyline r]}))
      as [Hm | Hm]; simpl; [done |].
    by rewrite (Hout _ _ Hm).
  - rewrite (Hout _ _ Hp).
    destruct (bool_decide_reflect (marker r ∈ shown)) as [Hm | Hm]; simpl;
      [done |].
    by rewrite (Hout _ _ Hm).
Qed.

Lemma hook_cleanup_removes (r : Run) (w : World) :
  exec (AnimatedJourneyLine.cleanup r) w =
    mkWorld (layers w) (onMap w ∖ {[polyline r]} ∖ {[marker r]}) (clock w)
            (pending w) (nextId w).
Proof. done. Qed.

Lemma activate_cases (prev : option Run) (trips : list Trip) (idx : Z)
    (mapInstance L : bool) (w : World) :
  let w0 := match prev with
            | Some r => exec (LeafletMap.cleanup r) w
            | None => w
            end in
  activate prev trips idx mapInstance L w = (None, w0) ∨
  ∃ s e, getCurrentJourneyPath trips idx = [s; e] ∧
    activate prev trips idx mapInstance L w =
      (Some (fst (started s e w0)), snd (started s e w0)).
Proof.
  intros w0. unfold activate.
  assert (Hbind : ∀ (A : Type) (k : M A),
    ((match prev with Some r => LeafletMap.cleanup r | None => mret tt end);; k) w
    = k w0).
  { intros A k. unfold mbind, M_bind, w0, exec.
    destruct prev as [r |]; [| done]. by destruct (LeafletMap.cleanup r w). }
  rewrite Hbind.
  destruct (animation_effect_cases mapInstance L
              (getCurrentJourneyPath trips idx)
              (currentTrip trips idx) w0) as [-> | (s & e & rest & Hpath & ->)];
    [by left | right].
  exists s, e. split; [| done].
  destruct (path_length trips idx) as [Hnil | (s' & e' & Hpath')].
  - by rewrite Hpath in Hnil.
  - rewrite Hpath' in Hpath. by injection Hpath as -> -> <-.
Qed.

Lemma started_run (s e : Coord) (w : World) :
  let r := fst (started s e w) in
  let w' := snd (started s e w) in
  startCoords r = s ∧ endCoords r = e ∧ startTime r = clock w ∧
  polyline r = nextId w ∧ marker r = S (nextId w) ∧
  nextId w' = S (S (nextId w)) ∧ clock w' = clock w.
Proof. done. Qed.


(** ** Leg change *)

(** C3, as stated, fails: when the cursor of the sample journey moves
    from 0 to 1 right after the first leg's animation was set up, the
    first leg's timer is still pending once the second leg's animation
    has started; when it is due it runs unguarded, draws on the first
    leg's polyline and asks for another animation frame of the first
    leg. *)
Lemma cancellation_counterexample :
  ∃ r1 w1 r2 w2 w3,
    activate None Page.sampleTrips 0 true true empty_world = (Some r1, w1) ∧
    activate (Some r1) Page.sampleTrips 1 true true w1 = (Some r2, w2) ∧
    pending w2 !! 0%nat =
      Some (mkPending (LeafletMap_start r1) (Timer 100) 100) ∧
    fire 0 (advance 100 w2) = Some w3 ∧
    w3 ≠ advance 100 w2 ∧
    pending w3 !! 1%nat =
      Some (mkPending (LeafletMap_animate r1) AnimationFrame 100).
Proof.
  eexists _, _, _, _, _.
  split; [by vm_compute |]. split; [by vm_compute |].
  split; [reflexivity |]. split; [by vm_compute |]. split; [| reflexivity].
  intros Heq. apply (f_equal (λ w, source <$> pending w !! 1%nat)) in Heq.
  vm_compute in Heq. discriminate.
Qed.

Lemma started_onMap (s e : Coord) (w : World) (i : nat) :
  i ∈ onMap (snd (started s e w)) ↔
  i = S (nextId w) ∨ i = nextId w ∨
  (is_animated_journey (layers w) i = false ∧ i ∈ onMap w).
Proof.
  simpl. rewrite !elem_of_union, !elem_of_singleton, elem_of_filter. done.
Qed.

(** C3, amended. When the effect is activated for a new leg after a
    previous leg's animation was started (running or settling, whatever
    callbacks have run since), the previous leg's polyline and marker
    are off the map once the activation is over, and no callback that
    runs later puts them back; if the new activation starts an
    animation, its polyline and marker are new objects on the map and
    its polyline is the only layer of class animated-journey left on
    the map.  Nothing is cancelled: every callback pending before the
    activation is still pending after it, and callbacks carry no
    liveness flag. *)
Theorem leg_change_cleanup
    (prev : option Run) (trips trips' : list Trip) (idx idx' : Z)
    (mapInstance L mapInstance' L' : bool) (w0 w1 w3 : World)
    (es : list Event)
    (r1 : Run) (r2 : option Run) :
  activate prev trips idx mapInstance L w0 = (Some r1, w1) →
  activate (Some r1) trips' idx' mapInstance' L' (run_events es w1)
    = (r2, w3) →
  (∀ es', (polyline r1 ∉ onMap (run_events es' w3)) ∧
          (marker r1 ∉ onMap (run_events es' w3))) ∧
  (∀ r, r2 = Some r →
        polyline r ∈ onMap w3 ∧ marker r ∈ onMap w3 ∧
        polyline r ≠ polyline r1 ∧ polyline r ≠ marker r1 ∧
        marker r ≠ polyline r1 ∧ marker r ≠ marker r1 ∧
        ∀ i, i ∈ onMap w3 → is_animated_journey (layers w3) i = true →
             i = polyline r) ∧
  (∀ p, p ∈ pending (run_events es w1) → p ∈ pending w3).
Proof.
  intros H1 H2.
  destruct (activate_cases prev trips idx mapInstance L w0)
    as [Hnone | (s & e & _ & Hsome)]; [congruence |].
  set (wa := match prev with
             | Some r => exec (LeafletMap.cleanup r) w0
             | None => w0
             end) in *.
  assert (Hr : r1 = fst (started s e wa)) by congruence.
  assert (Hw : w1 = snd (started s e wa)) by congruence.
  assert (Hp : polyline r1 = nextId wa) by (by rewrite Hr).
  assert (Hm : marker r1 = S (nextId wa)) by (by rewrite Hr).
  assert (Hn : nextId w1 = S (S (nextId wa))) by (by rewrite Hw).
  destruct (run_events_frame es w1) as (_ & Hn2 & _ & _).
  clear H1 Hsome Hr Hw. revert H2 Hn2.
  generalize (run_events es w1) as w2. intros w2 H2 Hn2.
  destruct (activate_cases (Some r1) trips' idx' mapInstance' L' w2)
    as [Hnone | (s' & e' & _ & Hsome)].
  - rewrite Hnone in H2. injection H2 as <- <-.
    rewrite cleanup_removes. simpl.
    split; [| split; [done | done]].
    intros es'. destruct (run_events_frame es'
      (mkWorld (layers w2) (onMap w2 ∖ {[polyline r1]} ∖ {[marker r1]})
               (clock w2) (pending w2) (nextId w2))) as (Hsub & _).
    simpl in Hsub. set_solver.
  - rewrite Hsome, cleanup_removes in H2.
    assert (Hr2 : r2 = Some (fst (started s' e'
      (mkWorld (layers w2) (onMap w2 ∖ {[polyline r1]} ∖ {[marker r1]})
               (clock w2) (pending w2) (nextId w2))))) by congruence.
    assert (w3 = snd (started s' e'
      (mkWorld (layers w2) (onMap w2 ∖ {[polyline r1]} ∖ {[marker r1]})
               (clock w2) (pending w2) (nextId w2)))) as -> by congruence.
    clear H2 Hsome. revert Hr2.
    set (wc := mkWorld (layers w2) (onMap w2 ∖ {[polyline r1]} ∖ {[marker r1]})
                       (clock w2) (pending w2) (nextId w2)).
    intros Hr2.
    assert (Hnc : nextId wc = nextId w2) by done.
    assert (Hoffp : polyline r1 ∉ onMap (snd (started s' e' wc))).
    { rewrite started_onMap. simpl.
      rewrite !elem_of_difference, !elem_of_singleton.
      intros [? | [? | [_ [[_ ?] _]]]]; [lia | lia | done]. }
    assert (Hoffm : marker r1 ∉ onMap (snd (started s' e' wc))).
    { rewrite started_onMap. simpl.
      rewrite !elem_of_difference, !elem_of_singleton.
      intros [? | [? | [_ [_ ?]]]]; [lia | lia | done]. }
    split; [| split].
    + intros es'.
      destruct (run_events_frame es' (snd (started s' e' wc))) as (Hsub & _).
      set_solver.
    + intros r Hr.
      assert (r = fst (started s' e' wc)) as -> by congruence.
      rewrite !started_onMap.
      split; [by right; left |]. split; [by left |].
      destruct (started_run s' e' wc) as (_ & _ & _ & -> & -> & _).
      rewrite Hnc. repeat split; try lia.
      intros i Hi Hcls. rewrite started_onMap in Hi.
      unfold is_animated_journey in Hcls. simpl in Hcls.
      destruct Hi as [-> | [-> | [Hnot Hin]]]; [| done |].
      * by rewrite lookup_insert_eq in Hcls.
      * destruct (decide (i = nextId w2)) as [-> | Hi1]; [done |].
        destruct (decide (i = S (nextId w2))) as [-> | Hi2].
        { by rewrite lookup_insert_eq in Hcls. }
        rewrite !lookup_insert_ne in Hcls by done.
        unfold is_animated_journey in Hnot. simpl in Hnot. congruence.
    + intros p Hin. simpl. apply elem_of_app. by left.
Qed.

Lemma leg_change_cleanup_witness :
  let r1 := mkRun (coords_of Page.losAngeles) (coords_of Page.lasVegas) 0 0 1 in
  let w1 := snd (activate None Page.sampleTrips 0 true true empty_world) in
  let w2 := run_events [Advance 100; Fire 0] w1 in
  let w3 := snd (activate (Some r1) Page.sampleTrips 1 true true w2) in
  (polyline r1 ∉ onMap w3) ∧ (marker r1 ∉ onMap w3).
Proof.
  intros r1 w1 w2 w3.
  refine (proj1 (leg_change_cleanup None Page.sampleTrips Page.sampleTrips
            0 1 true true true true empty_world w1 w3 [Advance 100; Fire 0] r1
            (fst (activate (Some r1) Page.sampleTrips 1 true true w2)) _ _) []).
  - reflexivity.
  - apply surjective_pairing.
Defined.

(** ** Interpolation and settling *)

Lemma interpolate_start (s e : Coord) (p : Q) :
  (p == 0)%Q → coord_eq (LeafletMap.interpolateCoords s e p) s.
Proof. intros Hp. split; simpl; rewrite Hp; ring. Qed.

Lemma interpolate_end (s e : Coord) (p : Q) :
  (p == 1)%Q → coord_eq (LeafletMap.interpolateCoords s e p) e.
Proof. intros Hp. split; simpl; rewrite Hp; ring. Qed.


Lemma elapsed_ratio_complete (t0 now : Z) :
  t0 + animationDuration <= now →
  (1 <= inject_Z (now - t0) / inject_Z animationDuration)%Q.
Proof.
  intros Hle. apply Qle_shift_div_l; [reflexivity |].
  rewrite Qmult_1_l. rewrite <- Zle_Qle. lia.
Qed.


Lemma progress_complete (t0 now : Z) :
  t0 + 2500 <= now → (LeafletMap.animationProgress t0 now == 1)%Q.
Proof.
  intros Hle. pose proof (elapsed_ratio_complete t0 now Hle) as Hone.
  unfold LeafletMap.animationProgress.
  destruct (Q.min_spec (inject_Z (now - t0) / inject_Z animationDuration) 1)
    as [[? Hmin] | [? Hmin]]; rewrite ?Hmin; lra.
Qed.

Lemma hook_same_arithmetic :
  AnimatedJourneyLine.interpolateCoords = LeafletMap.interpolateCoords ∧
  AnimatedJourneyLine.animationProgress = LeafletMap.animationProgress.
Proof. done. Qed.

Lemma fire_not_due (w : World) (i : nat) (p : Pending) :
  pending w !! i = Some p → clock w < due p → fire i w = None.
Proof. intros Hp Hlt. unfold fire. rewrite Hp. case_decide; [lia | done]. Qed.

Lemma leafletmap_settles :
  settles LeafletMap.animate LeafletMap_hide LeafletMap.hide 800.
Proof.
  intros r w Hdone w' timer.
  pose proof (progress_complete _ _ Hdone) as Hone.
  pose proof (interpolate_end (startCoords r) (endCoords r) _ Hone) as Hend.
  subst w' timer. unfold_world. simpl.
  destruct (Qlt_le_dec _ 1) as [Hlt | _]; [lra |]. simpl.
  split; [done |]. split; [done |]. split; [| split; [| split]].
  - intros l Hl. eexists. split; [| exact Hend].
    rewrite lookup_alter_eq, lookup_alter.
    case_decide as Heq; [rewrite Heq |]; by rewrite Hl.
  - intros l Hne Hl. eexists. split; [| exact Hend].
    by rewrite lookup_alter_ne, lookup_alter_eq, Hl.
  - intros w'' i Hp Hlt. by apply (fire_not_due w'' i _ Hp).
  - intros w''. split; [done |].
    destruct (bool_decide_reflect (marker r ∈ onMap w'')); simpl;
      [done | split; [set_solver | done]].
Qed.

Lemma hook_settles :
  settles AnimatedJourneyLine.animate Hook_hide AnimatedJourneyLine.hide 500.
Proof.
  intros r w Hdone w' timer.
  pose proof (progress_complete _ _ Hdone) as Hone.
  pose proof (interpolate_end (startCoords r) (endCoords r) _ Hone) as Hend.
  subst w' timer. unfold_world. simpl.
  destruct (Qlt_le_dec _ 1) as [Hlt | _];
    [exfalso; revert Hlt;
     change (¬ (LeafletMap.animationProgress (startTime r) (clock w) < 1)%Q);
     lra |]. simpl.
  split; [done |]. split; [done |]. split; [| split; [| split]].
  - intros l Hl. eexists. split; [| exact Hend].
    rewrite lookup_alter_eq, lookup_alter.
    case_decide as Heq; [rewrite Heq |]; by rewrite Hl.
  - intros l Hne Hl. eexists. split; [| exact Hend].
    by rewrite lookup_alter_ne, lookup_alter_eq, Hl.
  - intros w'' i Hp Hlt. by apply (fire_not_due w'' i _ Hp).
  - done.
Qed.

(** C6, as stated, fails for the hook of AnimatedJourneyLine: its
    animation of the leg Los Angeles -> Houston reaches progress 1 at
    2500 ms, and the marker is off the map 500 ms later, at 3000 ms, not
    after 800 ms. *)
Lemma grace_delay_counterexample :
  ∃ r w0 w1 w2,
    AnimatedJourneyLine.useLeafletComponent true true
      (coords_of Page.losAngeles) (coords_of Page.houston) true empty_world
      = (Some r, w0) ∧
    fire 0 (advance 2500 w0) = Some w1 ∧
    pending w1 = [mkPending (Hook_hide r) (Timer 500) 3000] ∧
    marker r ∈ onMap w1 ∧
    fire 0 (advance 500 w1) = Some w2 ∧
    clock w2 = 3000 ∧ (clock w2 < 2500 + 800) ∧
    marker r ∉ onMap w2.
Proof.
  eexists _, _, _, _.
  split; [by vm_compute |]. split; [by vm_compute |].
  split; [reflexivity |]. split; [by vm_compute |].
  split; [by vm_compute |]. split; [reflexivity |]. split; [done |].
  by vm_compute.
Qed.

(** C6, amended. Once the progress has reached 1 the final state is
    held: polyline and marker end at the leg's end, both stay on the
    map, and the only callback left is a timer that takes the marker,
    and only the marker, off the map; the delay of that timer is 800 ms
    in the LeafletMap effect and 500 ms in the hook of
    AnimatedJourneyLine. *)
Theorem settling :
  settles LeafletMap.animate LeafletMap_hide LeafletMap.hide 800 ∧
  settles AnimatedJourneyLine.animate Hook_hide AnimatedJourneyLine.hide 500.
Proof. split; [apply leafletmap_settles | apply hook_settles]. Qed.

Lemma settling_witness :
  let r := mkRun (coords_of Page.losAngeles) (coords_of Page.houston) 0 0 1 in
  let w := mkWorld ∅ ∅ 2500 [] 2 in
  pending (exec (LeafletMap.animate r) w) =
    [mkPending (LeafletMap_hide r) (Timer 800) 3300] ∧
  pending (exec (AnimatedJourneyLine.animate r) w) =
    [mkPending (Hook_hide r) (Timer 500) 3000].
Proof.
  intros r w. split.
  - refine (proj1 (proj1 settling r w _)). simpl. lia.
  - refine (proj1 (proj2 settling r w _)). simpl. lia.
Defined.




(** ** Bearing *)

Lemma hook_started (s e : Coord) (w w' : World) (r : Run) :
  AnimatedJourneyLine.useLeafletComponent true true s e true w = (Some r, w') →
  marker r = S (nextId w) ∧
  rotation <$> layers w' !! marker r = Some None.
Proof.
  unfold AnimatedJourneyLine.useLeafletComponent. simpl.
  unfold_world. simpl.
  destruct (Qlt_le_dec _ 1); simpl; intros [= <- <-]; simpl;
    (split; [done |]);
    rewrite lookup_alter_eq, lookup_alter_ne by lia;
    by rewrite lookup_insert_eq.
Qed.

(** C8, as stated, fails for the hook of AnimatedJourneyLine: the
    marker it creates for the leg Los Angeles -> Houston has no
    orientation at all, although the leg's bearing is defined by
    non-zero coordinate differences. *)
Lemma bearing_counterexample :
  ∃ r w l,
    AnimatedJourneyLine.useLeafletComponent true true
      (coords_of Page.losAngeles) (coords_of Page.houston) true empty_world
      = (Some r, w) ∧
    layers w !! marker r = Some l ∧
    rotation l = None ∧
    rotation l ≠
      Some (atan2_degrees
              (longitude Page.houston - longitude Page.losAngeles)
              (latitude Page.houston - latitude Page.losAngeles)).
Proof.
  eexists _, _, _. split; [by vm_compute |].
  split; [by vm_compute |]. done.
Qed.

(** C8, amended. In the LeafletMap effect the marker's orientation is
    atan2(delta longitude, delta latitude) in degrees, computed from the
    leg's endpoints when the animation starts, and no callback that runs
    afterwards changes it; the marker of the hook of AnimatedJourneyLine
    has no orientation, at its creation and ever after. *)
Theorem bearing_constant :
  (∀ prev trips idx mapInstance L w0 r w1,
     activate prev trips idx mapInstance L w0 = (Some r, w1) →
     ∃ s e, getCurrentJourneyPath trips idx = [s; e] ∧
       startCoords r = s ∧ endCoords r = e ∧
       ∀ es, rotation <$> layers (run_events es w1) !! marker r =
               Some (Some (atan2_degrees (snd e - snd s) (fst e - fst s))) ∧
             ∀ atan2 PI,
               angle_value atan2 PI (calculateRotation s e) =
                 (atan2 (snd e - snd s) (fst e - fst s) * (180 / PI))%Q) ∧
  (∀ s e w r w',
     AnimatedJourneyLine.useLeafletComponent true true s e true w = (Some r, w') →
     ∀ es, rotation <$> layers (run_events es w') !! marker r = Some None).
Proof.
  split.
  - intros prev trips idx mapInstance L w0 r w1 Hact.
    destruct (activate_cases prev trips idx mapInstance L w0)
      as [Hnone | (s & e & Hpath & Hsome)]; [congruence |].
    exists s, e. split; [done |].
    rewrite Hsome in Hact.
    assert (r = fst (started s e
      match prev with Some r => exec (LeafletMap.cleanup r) w0 | None => w0 end))
      as -> by congruence.
    assert (w1 = snd (started s e
      match prev with Some r => exec (LeafletMap.cleanup r) w0 | None => w0 end))
      as -> by congruence.
    split; [done |]. split; [done |]. intros es.
    destruct (run_events_frame es (snd (started s e
      match prev with Some r => exec (LeafletMap.cleanup r) w0 | None => w0 end)))
      as (_ & _ & _ & Hrot).
    split; [| done].
    rewrite Hrot. simpl. by rewrite lookup_insert_eq.
  - intros s e w r w' Hhook es.
    destruct (run_events_frame es w') as (_ & _ & _ & Hrot).
    rewrite Hrot. by destruct (hook_started s e w w' r Hhook).
Qed.

Lemma bearing_constant_witness :
  let a := activate None Page.sampleTrips 1 true true empty_world in
  rotation <$> layers (run_events [Advance 100; Fire 0] (snd a)) !! 1%nat =
    Some (Some (atan2_degrees (-95.3698 - -118.2437) (29.7604 - 34.0522))).
Proof.
  intros a.
  destruct (proj1 bearing_constant None Page.sampleTrips 1 true true
              empty_world
              (mkRun (34.0522, -118.2437)%Q (29.7604, -95.3698)%Q 0 0 1)
              (snd a) eq_refl) as (s & e & Hpath & Hs & He & Hrot).
  simpl in Hs, He. subst s e.
  exact (proj1 (Hrot [Advance 100; Fire 0])).
Defined.

(** * More properties *)

(** ** Colours and markers of the Leaflet map *)

Import LeafletMapView.

(** X1. The colour of a trip depends only on whether You and Celia are
    among its travelers, not on the order, the repetitions or the other
    names: purple for both, blue for You alone, pink for Celia alone,
    gray otherwise. *)
Theorem traveler_color_by_membership :
  (∀ l l' : list string,
     ("You" ∈ l ↔ "You" ∈ l') → ("Celia" ∈ l ↔ "Celia" ∈ l') →
     getTravelerColor l = getTravelerColor l') ∧
  (∀ l : list string,
     (getTravelerColor l = "#8B5CF6" ↔ "You" ∈ l ∧ "Celia" ∈ l) ∧
     (getTravelerColor l = "#3B82F6" ↔ "You" ∈ l ∧ ("Celia" ∉ l)) ∧
     (getTravelerColor l = "#EC4899" ↔ ("You" ∉ l) ∧ "Celia" ∈ l) ∧
     (getTravelerColor l = "#6B7280" ↔ ("You" ∉ l) ∧ ("Celia" ∉ l))).
Proof.
  split.
  - intros l l' Hyou Hcelia. unfold getTravelerColor, includes.
    by rewrite (bool_decide_ext _ _ Hyou), (bool_decide_ext _ _ Hcelia).
  - intros l. unfold getTravelerColor, includes.
    destruct (bool_decide_reflect ("You" ∈ l));
      destruct (bool_decide_reflect ("Celia" ∈ l)); simpl;
      repeat split; first [done | by intros [? ?]].
Qed.

Lemma traveler_color_by_membership_witness :
  getTravelerColor ["Celia"; "Sarah"; "You"; "Celia"] =
    getTravelerColor ["You"; "Celia"].
Proof.
  apply (proj1 traveler_color_by_membership); split; intros _;
    repeat constructor.
Defined.

Lemma markers_of_length (c : Z) (i : nat) (t : Trip) :
  length (markers_of c i t) =
    S (if decide (type t = ONE_WAY) then 1 else 0).
Proof. unfold markers_of. destruct (type t); by case_decide. Qed.

Lemma sum_marker_counts (l : list Trip) :
  sum_list ((λ t, S (if decide (type t = ONE_WAY) then 1 else 0)) <$> l) =
    (length l + length (filter (λ t, type t = ONE_WAY) l))%nat.
Proof.
  induction l as [| t l IH]; [done |].
  rewrite fmap_cons, filter_cons. cbn [sum_list sum_list_with length].
  rewrite IH. case_decide; simpl; lia.
Qed.

Lemma concat_imap_length {A B} (f : nat → A → list B) (g : A → nat) (l : list A) :
  (∀ i x, length (f i x) = g x) →
  length (concat (imap f l)) = sum_list (g <$> l).
Proof.
  revert f. induction l as [| x l IH]; intros f Hf; simpl; [done |].
  rewrite length_app, Hf. f_equal. apply IH. intros i y. apply Hf.
Qed.

Lemma elem_of_concat_imap {A B} (f : nat → A → list B) (l : list A) (y : B) :
  y ∈ concat (imap f l) → ∃ i x, l !! i = Some x ∧ y ∈ f i x.
Proof.
  revert f. induction l as [| x l IH]; intros f; simpl.
  - by intros ?%elem_of_nil.
  - intros [Hy | Hy]%elem_of_app.
    + by exists 0%nat, x.
    + destruct (IH _ Hy) as (i & x' & Hi & Hin). by exists (S i), x'.
Qed.

Lemma concat_imap_fmap {A B C} (h : B → C) (f : nat → A → list B)
    (g : A → list C) (l : list A) :
  (∀ i x, h <$> f i x = g x) →
  h <$> concat (imap f l) = concat (g <$> l).
Proof.
  revert f. induction l as [| x l IH]; intros f Hf; simpl; [done |].
  rewrite fmap_app, Hf. f_equal. apply IH. intros i y. apply Hf.
Qed.

Lemma markers_of_positions (c : Z) (i : nat) (t : Trip) :
  position <$> markers_of c i t =
    coords_of (departureLocation t) ::
      (if decide (type t = ONE_WAY) then [coords_of (arrivalLocation t)]
       else []).
Proof. unfold markers_of. destruct (type t); by case_decide. Qed.

(** X2. The markers of the map are, trip by trip in the order of the
    visible trips, one marker at the trip's departure followed, for a
    one-way trip only, by one at its arrival, so the arrival of a round
    trip has no marker; their number is the number of visible trips
    plus the number of visible one-way trips; and every marker's click
    reports its position with longitude first. *)
Theorem trip_markers_count (trips : list Trip) (idx : Z) :
  position <$> tripMarkers trips idx =
    concat ((λ t, coords_of (departureLocation t) ::
                    (if decide (type t = ONE_WAY)
                     then [coords_of (arrivalLocation t)] else []))
              <$> LeafletMap.visibleTrips trips idx) ∧
  length (tripMarkers trips idx) =
    (length (LeafletMap.visibleTrips trips idx) +
     length (filter (λ t, type t = ONE_WAY)
                    (LeafletMap.visibleTrips trips idx)))%nat ∧
  (∀ m, m ∈ tripMarkers trips idx →
        click m = (snd (position m), fst (position m)) ∧
        ∃ i t, LeafletMap.visibleTrips trips idx !! i = Some t ∧
          (position m = coords_of (departureLocation t) ∨
           (type t = ONE_WAY ∧ position m = coords_of (arrivalLocation t)))).
Proof.
  unfold tripMarkers. split; [| split].
  - apply concat_imap_fmap. intros i t. apply markers_of_positions.
  - rewrite (concat_imap_length _
      (λ t, S (if decide (type t = ONE_WAY) then 1 else 0)))
      by apply markers_of_length.
    apply sum_marker_counts.
  - intros m (i & t & Hi & Hm)%elem_of_concat_imap.
    unfold markers_of in Hm.
    destruct (type t) eqn:Hty.
    + apply list_elem_of_singleton in Hm as ->. simpl.
      split; [done |]. exists i, t. split; [done | by left].
    + apply elem_of_cons in Hm as [-> | Hm]; simpl.
      * split; [done |]. exists i, t. split; [done | by left].
      * apply list_elem_of_singleton in Hm as ->. simpl.
        split; [done |]. exists i, t. split; [done | by right].
Qed.

Lemma trip_markers_count_witness :
  position <$> tripMarkers Page.sampleTrips 1 =
    [coords_of Page.losAngeles; coords_of Page.losAngeles;
     coords_of Page.houston] ∧
  length (tripMarkers Page.sampleTrips 1) = 3%nat ∧
  length (tripMarkers Page.sampleTrips 0) = 1%nat.
Proof.
  split; [| split].
  - exact (proj1 (trip_markers_count Page.sampleTrips 1)).
  - exact (proj1 (proj2 (trip_markers_count Page.sampleTrips 1))).
  - exact (proj1 (proj2 (trip_markers_count Page.sampleTrips 0))).
Defined.

(** Strings as lists of characters. *)
Lemma list_ascii_of_app (s t : string) :
  Stdlib.Strings.String.list_ascii_of_string (s +:+ t) =
    Stdlib.Strings.String.list_ascii_of_string s ++ Stdlib.Strings.String.list_ascii_of_string t.
Proof. induction s as [| a s IH]; simpl; [done | by rewrite IH]. Qed.

Lemma list_ascii_of_string_inj (s t : string) :
  Stdlib.Strings.String.list_ascii_of_string s = Stdlib.Strings.String.list_ascii_of_string t → s = t.
Proof.
  intros Heq.
  rewrite <- (Stdlib.Strings.String.string_of_list_ascii_of_string s),
          <- (Stdlib.Strings.String.string_of_list_ascii_of_string t).
  by rewrite Heq.
Qed.

Lemma string_app_inv_tail (s1 s2 t : string) :
  s1 +:+ t = s2 +:+ t → s1 = s2.
Proof.
  intros Heq. apply list_ascii_of_string_inj.
  apply (f_equal Stdlib.Strings.String.list_ascii_of_string) in Heq.
  rewrite !list_ascii_of_app in Heq. by apply app_inv_tail in Heq.
Qed.

Lemma departure_arrival_keys_differ (s1 s2 : string) :
  s1 +:+ "-departure" ≠ s2 +:+ "-arrival".
Proof.
  intros Heq. apply (f_equal Stdlib.Strings.String.list_ascii_of_string) in Heq.
  rewrite !list_ascii_of_app in Heq.
  apply (f_equal (@rev _)) in Heq. rewrite !rev_app_distr in Heq.
  simpl in Heq. discriminate.
Qed.

Lemma marker_key_cases (c : Z) (i : nat) (t : Trip) (k : string) :
  k ∈ key <$> markers_of c i t →
  k = id t +:+ "-departure" ∨ k = id t +:+ "-arrival".
Proof.
  unfold markers_of. destruct (type t); simpl.
  - intros ->%list_elem_of_singleton. by left.
  - intros [-> | ->%list_elem_of_singleton]%elem_of_cons; [by left | by right].
Qed.

Lemma marker_keys_NoDup (c : Z) (i : nat) (t : Trip) :
  NoDup (key <$> markers_of c i t).
Proof.
  unfold markers_of. destruct (type t); simpl.
  - apply NoDup_singleton.
  - apply NoDup_cons. split; [| apply NoDup_singleton].
    intros Hin%list_elem_of_singleton.
    by apply departure_arrival_keys_differ in Hin.
Qed.

Lemma concat_imap_keys_NoDup (f : nat → Trip → list MarkerElement)
    (l : list Trip) :
  (∀ i t, ∃ c j, f i t = markers_of c j t) →
  NoDup (id <$> l) → NoDup (key <$> concat (imap f l)).
Proof.
  revert f. induction l as [| t l IH]; intros f Hf Hids; simpl.
  - apply NoDup_nil_2.
  - rewrite fmap_cons in Hids. apply NoDup_cons in Hids as [Hnew Hids].
    rewrite fmap_app. apply NoDup_app. split; [| split].
    + destruct (Hf 0%nat t) as (c & j & ->). apply marker_keys_NoDup.
    + intros k Hk Hk'.
      destruct (Hf 0%nat t) as (c & j & Heq). rewrite Heq in Hk.
      apply marker_key_cases in Hk.
      apply list_elem_of_fmap in Hk' as (m & -> & Hm).
      apply elem_of_concat_imap in Hm as (i' & t' & Hi' & Hm).
      simpl in Hm. destruct (Hf (S i') t') as (c' & j' & Heq').
      rewrite Heq' in Hm.
      assert (Hk' : key m ∈ key <$> markers_of c' j' t')
        by (apply list_elem_of_fmap; eauto).
      apply marker_key_cases in Hk'.
      assert (Hne : id t ≠ id t').
      { intros Hid. apply Hnew. rewrite Hid.
        apply list_elem_of_fmap. exists t'. split; [done |].
        by apply list_elem_of_lookup_2 in Hi'. }
      destruct Hk as [Hk | Hk], Hk' as [Hk' | Hk']; rewrite Hk in Hk'.
      * by apply string_app_inv_tail in Hk'.
      * by apply departure_arrival_keys_differ in Hk'.
      * symmetry in Hk'. by apply departure_arrival_keys_differ in Hk'.
      * by apply string_app_inv_tail in Hk'.
    + apply IH; [| done]. intros i t'. apply Hf.
Qed.

(** X3. When no two trips share an identifier, no two markers of the
    map share a React key. *)
Theorem trip_marker_keys_unique (trips : list Trip) (idx : Z) :
  NoDup (id <$> trips) → NoDup (key <$> tripMarkers trips idx).
Proof.
  intros Hids. unfold tripMarkers.
  apply concat_imap_keys_NoDup; [by eexists _, _ |].
  unfold LeafletMap.visibleTrips, js_slice0.
  rewrite fmap_take. eapply sublist_NoDup; [done | apply sublist_take].
Qed.

Lemma trip_marker_keys_unique_witness :
  NoDup (key <$> tripMarkers Page.sampleTrips 1).
Proof.
  apply trip_marker_keys_unique.
  apply (bool_decide_unpack (NoDup (id <$> Page.sampleTrips))).
  vm_compute. exact I.
Defined.

(** ** The page: cursor and trips *)

Lemma imap_ids (f : nat → Z) (l : list Trip) :
  id <$> imap (λ index trip, Home.with_order trip (f index)) l = id <$> l.
Proof.
  revert f. induction l as [| t l IH]; intros f; [done |].
  simpl. f_equal. apply (IH (f ∘ S)).
Qed.

Lemma deleted_ids (tripId : string) (s : Home.State) :
  id <$> Home.trips (Home.handleDeleteTrip tripId s) =
    filter (λ i, i ≠ tripId) (id <$> Home.trips s).
Proof.
  assert (Hids : id <$> imap (λ index trip,
                    Home.with_order trip (Z.of_nat index + 1))
                   (filter (λ trip, id trip ≠ tripId) (Home.trips s))
                 = filter (λ i, i ≠ tripId) (id <$> Home.trips s)).
  { rewrite (imap_ids (λ index, Z.of_nat index + 1)).
    induction (Home.trips s) as [| t l IH]; [done |].
    rewrite fmap_cons, !filter_cons. case_decide; [| done].
    rewrite fmap_cons. by f_equal. }
  unfold Home.handleDeleteTrip. by case_decide.
Qed.

Lemma filter_absent (x : string) (l : list string) :
  x ∉ l → filter (λ i, i ≠ x) l = l.
Proof.
  induction l as [| y l IH]; [done |]. intros Hx.
  apply not_elem_of_cons in Hx as [Hne Hx].
  rewrite filter_cons_True by done. f_equal. by apply IH.
Qed.

Lemma filter_one_out (x : string) (l : list string) :
  NoDup l → (length l <= S (length (filter (λ i, i ≠ x) l)))%nat.
Proof.
  induction 1 as [| y l Hy Hnd IH]; [simpl; lia |].
  destruct (decide (y = x)) as [-> | Hne].
  - rewrite filter_cons_False by (by intros ?).
    rewrite filter_absent by done. simpl. lia.
  - rewrite filter_cons_True by done. simpl. lia.
Qed.

Lemma deleted_length (tripId : string) (s : Home.State) :
  NoDup (id <$> Home.trips s) →
  Home.length_of s - 1 <= Home.length_of (Home.handleDeleteTrip tripId s)
    <= Home.length_of s.
Proof.
  intros Hnd. unfold Home.length_of.
  rewrite <- (length_fmap id (Home.trips (Home.handleDeleteTrip tripId s))),
          <- (length_fmap id (Home.trips s)), deleted_ids.
  pose proof (filter_one_out tripId _ Hnd).
  pose proof (length_filter (λ i, i ≠ tripId) (id <$> Home.trips s)). lia.
Qed.

Lemma deleted_cursor (tripId : string) (s : Home.State) :
  Home.currentTripIndex (Home.handleDeleteTrip tripId s) =
    if decide (Home.currentTripIndex s >= Home.length_of s - 1)
    then Z.max 0 (Home.length_of s - 2)
    else Home.currentTripIndex s.
Proof. unfold Home.handleDeleteTrip. by case_decide. Qed.

Lemma length_of_zero (s : Home.State) :
  Home.length_of s = 0 → Home.trips s = [].
Proof.
  unfold Home.length_of. intros Hlen. apply length_zero_iff_nil. lia.
Qed.

Lemma handleNext_ok (s : Home.State) :
  Home.cursor_ok s → Home.cursor_ok (Home.handleNext s).
Proof.
  intros [Hnd Hin]. unfold Home.handleNext. case_decide; [| done].
  split; [done |]. left. unfold Home.length_of in *. simpl.
  destruct Hin as [? | [Hnil ?]]; [lia |]. rewrite Hnil in *. simpl in *. lia.
Qed.

Lemma handlePrevious_ok (s : Home.State) :
  Home.cursor_ok s → Home.cursor_ok (Home.handlePrevious s).
Proof.
  intros [Hnd Hin]. unfold Home.handlePrevious. case_decide; [| done].
  split; [done |]. left. unfold Home.length_of in *. simpl.
  destruct Hin as [? | [Hnil ?]]; lia.
Qed.

Lemma setCurrentTripIndex_zero_ok (s : Home.State) :
  Home.cursor_ok s → Home.cursor_ok (Home.setCurrentTripIndex 0 s).
Proof.
  intros [Hnd Hin]. split; [done |]. unfold Home.length_of in *. simpl.
  destruct Hin as [? | [Hnil ?]]; [left; lia | by right].
Qed.

Lemma handleDeleteTrip_ok (tripId : string) (s : Home.State) :
  Home.cursor_ok s → Home.cursor_ok (Home.handleDeleteTrip tripId s).
Proof.
  intros [Hnd Hin]. split.
  - rewrite deleted_ids. eapply sublist_NoDup; [done | apply sublist_filter].
  - pose proof (deleted_length tripId s Hnd) as Hlen.
    rewrite deleted_cursor.
    destruct (decide (Home.length_of (Home.handleDeleteTrip tripId s) = 0))
      as [Hzero | Hpos].
    + right. split; [by apply length_of_zero |].
      assert (Home.length_of s >= 0) by (unfold Home.length_of; lia).
      case_decide; destruct Hin as [? | [? ?]]; lia.
    + left.
      assert (Home.length_of (Home.handleDeleteTrip tripId s) >= 0)
        by (unfold Home.length_of; lia).
      case_decide; destruct Hin as [? | [Hnil ?]]; try lia.
      all: unfold Home.length_of in Hlen at 1 3; rewrite Hnil in Hlen;
        simpl in Hlen; lia.
Qed.

Lemma handle_ok (a : Home.Action) (s : Home.State) :
  Home.cursor_ok s → Home.offered a s → Home.cursor_ok (Home.handle a s).
Proof.
  intros Hok Hoff. destruct a; simpl in *.
  - by apply handleNext_ok.
  - by apply handlePrevious_ok.
  - done.
  - by apply setCurrentTripIndex_zero_ok.
  - unfold Home.handleKeyPress. repeat case_decide;
      [by apply handlePrevious_ok | by apply handleNext_ok | done].
  - destruct Hok as [Hnd _]. split; [done |]. left.
    unfold Home.length_of. simpl. lia.
  - destruct Hok as [Hnd _]. split; simpl.
    + rewrite fmap_app. apply NoDup_app. split; [done |].
      split; [| apply NoDup_singleton].
      intros i Hi ->%list_elem_of_singleton. done.
    + left. unfold Home.length_of. simpl. rewrite length_app. simpl. lia.
  - by apply handleDeleteTrip_ok.
  - done.
  - done.
  - unfold Home.tick, Home.interval_armed.
    destruct (Home.isPlaying s); simpl; [| done].
    case_bool_decide; [| done].
    unfold Home.interval_callback. case_decide; [done |].
    destruct Hok as [Hnd Hin]. split; [done |]. left.
    unfold Home.length_of in *. simpl.
    destruct Hin as [? | [Hnil ?]]; [lia |]. rewrite Hnil in *. simpl in *. lia.
Qed.

(** X4. The cursor of the page never leaves the journey: from a state
    where it points at a trip (or the journey is empty and it is 0) and
    identifiers are unique, every action the page offers (buttons, keys,
    a click in the list, adding a trip under a fresh identifier,
    deleting any trip, a tick of the autoplay) leads to such a state. *)
Theorem cursor_stays_in_range (a : Home.Action) (s : Home.State) :
  Home.cursor_ok s → Home.offered a s → Home.cursor_ok (Home.handle a s).
Proof. apply handle_ok. Qed.

Lemma cursor_stays_in_range_witness :
  Home.cursor_ok (Home.handle (Home.DeleteTrip "2")
                    (Home.handle Home.Next Home.initial)).
Proof.
  assert (Hinit : Home.cursor_ok Home.initial).
  { split; [| left; by vm_compute].
    apply (bool_decide_unpack (NoDup (id <$> Page.sampleTrips))).
    vm_compute. exact I. }
  apply cursor_stays_in_range; [| exact I].
  apply cursor_stays_in_range; [exact Hinit | exact I].
Defined.

Lemma handle_trips_cases (a : Home.Action) (s : Home.State) :
  Home.trips (Home.handle a s) = Home.trips s ∨
  (∃ d now, a = Home.AddTrip d now) ∨ (∃ tripId, a = Home.DeleteTrip tripId).
Proof.
  destruct a; simpl; eauto.
  - unfold Home.handleNext. case_decide; by left.
  - unfold Home.handlePrevious. case_decide; by left.
  - unfold Home.handleKeyPress, Home.handlePrevious, Home.handleNext.
    repeat case_decide; by left.
  - unfold Home.tick, Home.interval_callback.
    destruct (Home.interval_armed s); [case_decide |]; by left.
Qed.

Lemma deleted_numbered (tripId : string) (s : Home.State) :
  Home.numbered (Home.trips (Home.handleDeleteTrip tripId s)).
Proof.
  assert (Hnum : Home.numbered
    (imap (λ index trip, Home.with_order trip (Z.of_nat index + 1))
          (filter (λ trip, id trip ≠ tripId) (Home.trips s)))).
  { intros i t Hi. rewrite list_lookup_imap in Hi.
    destruct (filter _ _ !! i); [| done]. by injection Hi as <-. }
  unfold Home.handleDeleteTrip. by case_decide.
Qed.

(** X5. The trips of the page stay numbered 1, 2, ... in list order:
    every action keeps the numbering, and deleting a trip restores it
    whatever the numbers were before. *)
Theorem numbering_kept :
  (∀ a s, Home.numbered (Home.trips s) →
          Home.numbered (Home.trips (Home.handle a s))) ∧
  (∀ tripId s, Home.numbered (Home.trips (Home.handleDeleteTrip tripId s))) ∧
  Home.numbered (Home.trips Home.initial).
Proof.
  split; [| split].
  - intros a s Hnum.
    destruct (handle_trips_cases a s)
      as [-> | [(d & now & ->) | (tripId & ->)]]; [done | |].
    + simpl. intros i t [Hi | [Hle Hi]]%lookup_app_Some.
      * by apply Hnum.
      * apply list_lookup_singleton_Some in Hi as [Hi <-]. simpl.
        unfold Home.length_of. lia.
    + apply deleted_numbered.
  - apply deleted_numbered.
  - intros [| [| i]] t; simpl; intros [= <-]; done.
Qed.

Lemma numbering_kept_witness :
  Home.numbered (Home.trips (Home.handle (Home.DeleteTrip "1") Home.initial)).
Proof.
  apply (proj1 numbering_kept). exact (proj2 (proj2 numbering_kept)).
Defined.

Lemma filter_middle (t : Trip) (l1 l2 : list Trip) :
  NoDup (id <$> (l1 ++ t :: l2)) →
  filter (λ trip, id trip ≠ id t) (l1 ++ t :: l2) = l1 ++ l2.
Proof.
  rewrite fmap_app, fmap_cons. intros (Hnd1 & Hsep & Hnd2)%NoDup_app.
  apply NoDup_cons in Hnd2 as [Ht Hnd2].
  assert (Hkeep : ∀ l : list Trip, id t ∉ id <$> l →
            filter (λ trip, id trip ≠ id t) l = l).
  { induction l as [| x l IH]; [done |]. rewrite fmap_cons.
    intros [Hne Hin]%not_elem_of_cons.
    rewrite filter_cons_True by done. f_equal. by apply IH. }
  rewrite filter_app, filter_cons_False by (by intros ?).
  rewrite !Hkeep; [done | done |].
  intros Hin. apply (Hsep _ Hin). by left.
Qed.

(** X6. Deleting a trip removes the trips with that identifier and no
    other, keeping the order of the rest and changing only their
    numbers.  With unique identifiers, deleting the current trip leaves
    the cursor where it is, now on the trip that followed, unless the
    trip was the last one: then the cursor steps back, to 0 at least. *)
Theorem delete_removes_exactly (tripId : string) (s : Home.State) :
  let s' := Home.handleDeleteTrip tripId s in
  id <$> Home.trips s' = filter (λ i, i ≠ tripId) (id <$> Home.trips s) ∧
  (∀ i t', Home.trips s' !! i = Some t' →
     ∃ t, t ∈ Home.trips s ∧ id t ≠ tripId ∧
          t' = Home.with_order t (Z.of_nat i + 1)) ∧
  (∀ (k : nat) t,
     NoDup (id <$> Home.trips s) →
     Home.trips s !! k = Some t → tripId = id t →
     Home.currentTripIndex s = Z.of_nat k →
     Home.length_of s' = Home.length_of s - 1 ∧
     (∀ next, Home.trips s !! S k = Some next →
        Home.currentTripIndex s' = Z.of_nat k ∧
        Home.trips s' !! k = Some (Home.with_order next (Z.of_nat k + 1))) ∧
     (Home.trips s !! S k = None →
        Home.currentTripIndex s' = Z.max 0 (Z.of_nat k - 1))).
Proof.
  intros s'. split; [apply deleted_ids |].
  assert (Htrips : Home.trips s' =
    imap (λ index trip, Home.with_order trip (Z.of_nat index + 1))
         (filter (λ trip, id trip ≠ tripId) (Home.trips s))).
  { unfold s', Home.handleDeleteTrip. by case_decide. }
  split.
  - intros i t' Hi. rewrite Htrips, list_lookup_imap in Hi.
    destruct (filter _ _ !! i) as [t |] eqn:Ht; [| done].
    injection Hi as <-. exists t.
    apply list_elem_of_lookup_2, list_elem_of_filter in Ht as [? ?]. done.
  - intros k t Hnd Hk -> Hcur.
    pose proof (take_drop_middle _ _ _ Hk) as Hsplit.
    pose proof (lookup_lt_Some _ _ _ Hk) as Hlt.
    rewrite <- Hsplit in Hnd.
    pose proof (filter_middle _ _ _ Hnd) as Hfilter.
    rewrite Hsplit in Hfilter. rewrite Hfilter in Htrips.
    assert (Hlen : Home.length_of s' = Home.length_of s - 1).
    { unfold Home.length_of. rewrite Htrips, length_imap, length_app.
      rewrite length_take, length_drop. lia. }
    split; [done |]. unfold s'. rewrite deleted_cursor. fold s'. split.
    + intros next Hnext. pose proof (lookup_lt_Some _ _ _ Hnext).
      case_decide; [unfold Home.length_of in *; lia |].
      split; [done |].
      rewrite Htrips, list_lookup_imap, lookup_app_r
        by (rewrite length_take; lia).
      rewrite length_take, lookup_drop.
      replace (S k + (k - k `min` length (Home.trips s)))%nat with (S k)
        by lia.
      by rewrite Hnext.
    + intros Hlast%lookup_ge_None.
      case_decide; unfold Home.length_of in *; lia.
Qed.

Lemma delete_removes_exactly_witness :
  Home.currentTripIndex
    (Home.handleDeleteTrip "2" (Home.handleNext Home.initial)) = 0 ∧
  id <$> Home.trips (Home.handleDeleteTrip "2" (Home.handleNext Home.initial))
    = ["1"].
Proof.
  split.
  - refine (proj2 (proj2 (proj2 (proj2
        (delete_removes_exactly "2" (Home.handleNext Home.initial)))
        1%nat Page.thanksgivingInHouston _ eq_refl eq_refl eq_refl)) eq_refl).
    apply (bool_decide_unpack (NoDup (id <$> Page.sampleTrips))).
    vm_compute. exact I.
  - exact (proj1 (delete_removes_exactly "2" (Home.handleNext Home.initial))).
Defined.

Lemma initial_ok : Home.cursor_ok Home.initial.
Proof.
  split; [| left; by vm_compute].
  apply (bool_decide_unpack (NoDup (id <$> Page.sampleTrips))).
  vm_compute. exact I.
Qed.

Lemma run_ok (acts : list Home.Action) (s : Home.State) :
  Home.cursor_ok s → Home.all_offered acts s → Home.cursor_ok (Home.run acts s).
Proof.
  revert s. induction acts as [| a acts IH]; intros s Hok Hoff; [done |].
  destruct Hoff as [Ha Hoff]. apply IH; [by apply handle_ok | done].
Qed.

Lemma path_of_current (trips : list Trip) (idx : Z) (cur : Trip) :
  LeafletMap.currentTrip trips idx = Some cur →
  ∃ st, getCurrentJourneyPath trips idx = [st; coords_of (arrivalLocation cur)] ∧
        (type cur = ROUND_TRIP ∨ idx = 0 →
         st = coords_of (departureLocation cur)).
Proof.
  intros Hcur.
  assert (Hin : getCurrentJourneyPath trips idx ≠ []).
  { rewrite path_empty_iff. intros Hout. apply js_index_None in Hout.
    unfold LeafletMap.currentTrip in Hcur. congruence. }
  revert Hin. unfold getCurrentJourneyPath, LeafletMap.getCurrentJourneyPath_in.
  rewrite Hcur. destruct (type cur).
  - intros _. eexists. split; [done | done].
  - case_decide.
    + intros _. eexists. split; [done | done].
    + destruct (js_index _ _); [| done]. intros _. eexists. split; [done |].
      by intros [? | ?].
Qed.

(** X7. Adding a trip appends it under the identifier trip-<now> and
    the next number and makes it the current trip; the map then has a
    leg to animate, which ends at the new trip's arrival and, for a
    round trip or a first trip, starts at its departure. *)
Theorem add_trip_becomes_current (d : Trip) (now : Z) (s : Home.State) :
  let s' := Home.handleAddTrip d now s in
  let new := Home.with_id_order d ("trip-" +:+ pretty now)
                                (Home.length_of s + 1) in
  Home.trips s' = Home.trips s ++ [new] ∧
  LeafletMap.currentTrip (Home.trips s') (Home.currentTripIndex s') = Some new ∧
  LeafletMap.visibleTrips (Home.trips s') (Home.currentTripIndex s')
    = Home.trips s' ∧
  ∃ st,
    getCurrentJourneyPath (Home.trips s') (Home.currentTripIndex s')
      = [st; coords_of (arrivalLocation d)] ∧
    (type d = ROUND_TRIP ∨ Home.trips s = [] →
     st = coords_of (departureLocation d)).
Proof.
  intros s' new.
  assert (Hcur : LeafletMap.currentTrip (Home.trips s')
                   (Home.currentTripIndex s') = Some new).
  { unfold LeafletMap.currentTrip. simpl.
    apply js_index_Some. unfold Home.length_of. split; [lia |].
    rewrite Nat2Z.id. apply list_lookup_middle. done. }
  split; [done |]. split; [done |]. split.
  - simpl. rewrite visibleTrips_in_range by (unfold Home.length_of; lia).
    apply take_ge. unfold Home.length_of. rewrite length_app. simpl. lia.
  - destruct (path_of_current _ _ _ Hcur) as (st & Hpath & Hst).
    exists st. split; [done |]. intros [Hrt | Hnil]; apply Hst.
    + by left.
    + right. simpl. unfold Home.length_of. by rewrite Hnil.
Qed.

Lemma add_trip_becomes_current_witness :
  ∃ st,
    getCurrentJourneyPath
      (Home.trips (Home.handleAddTrip Page.vegasWeekend 1700000000000
                     Home.initial)) 2
      = [st; coords_of Page.lasVegas] ∧ st = coords_of Page.losAngeles.
Proof.
  destruct (proj2 (proj2 (proj2
    (add_trip_becomes_current Page.vegasWeekend 1700000000000 Home.initial))))
    as (st & Hpath & Hst).
  exists st. split; [exact Hpath |]. apply Hst. by left.
Defined.

(** X8. The autoplay moves the cursor one trip forward per tick up to
    the last trip and never past it; it changes no trip, and it never
    switches playing off, also once the last trip is reached. *)
Theorem autoplay_reaches_end (n : nat) (s : Home.State) :
  Home.isPlaying s = true →
  0 <= Home.currentTripIndex s < Home.length_of s →
  let s' := Nat.iter n Home.tick s in
  Home.currentTripIndex s' =
    Z.min (Home.currentTripIndex s + Z.of_nat n) (Home.length_of s - 1) ∧
  Home.isPlaying s' = true ∧ Home.trips s' = Home.trips s.
Proof.
  intros Hplay Hin. induction n as [| n IH]; simpl.
  - split; [lia | done].
  - destruct IH as (Hidx & Hplay' & Htrips).
    set (sn := Nat.iter n Home.tick s) in *.
    assert (Hlen : Home.length_of sn = Home.length_of s)
      by (unfold Home.length_of; by rewrite Htrips).
    unfold Home.tick, Home.interval_armed. rewrite Hplay'. simpl.
    case_bool_decide as Harm.
    + unfold Home.interval_callback. case_decide; [lia |]. simpl.
      split; [lia | done].
    + split; [lia | done].
Qed.

Lemma autoplay_reaches_end_witness :
  Home.currentTripIndex
    (Nat.iter 5 Home.tick (Home.handlePlayPause Home.initial)) = 1.
Proof.
  apply (autoplay_reaches_end 5 (Home.handlePlayPause Home.initial)).
  - reflexivity.
  - by vm_compute.
Defined.

(** X9. In every state the page reaches from its initial state, the map
    is given either no trip at all, and then shows the default viewport,
    moves no view and animates nothing, or a cursor with a resolved leg
    that ends at the current trip's arrival, and then frames that leg:
    the fallback that centres on the first trip with zoom 8 is never
    shown. *)
Theorem page_always_has_leg (acts : list Home.Action) :
  Home.all_offered acts Home.initial →
  let s := Home.run acts Home.initial in
  let trips := Home.trips s in
  let idx := Home.currentTripIndex s in
  (trips = [] →
     LeafletMap.getMapBounds trips idx = Ok LeafletMap.default_viewport ∧
     (∀ mapInstance L, view_effect mapInstance L trips idx = Ok None) ∧
     getCurrentJourneyPath trips idx = []) ∧
  (trips ≠ [] →
     ∃ cur st,
       LeafletMap.currentTrip trips idx = Some cur ∧
       getCurrentJourneyPath trips idx = [st; coords_of (arrivalLocation cur)] ∧
       view_effect true true trips idx =
         Ok (Some (LeafletMap.mkViewport
           (mean64 (fst st) (latitude (arrivalLocation cur)),
            mean64 (snd st) (longitude (arrivalLocation cur)))
           (LeafletMap.zoomFor
              (LeafletMap.maxDiff_of st
                 (coords_of (arrivalLocation cur))))))).
Proof.
  intros Hoff s trips idx.
  pose proof (run_ok acts Home.initial initial_ok Hoff) as [_ Hin].
  fold s in Hin. fold trips idx in Hin. split.
  - intros Hnil. rewrite Hnil. split; [| split].
    + unfold LeafletMap.getMapBounds, LeafletMap.getMapBounds_in.
      by rewrite visibleTrips_empty_journey.
    + intros mapInstance L. unfold view_effect. simpl.
      by rewrite andb_false_r.
    + apply path_empty_iff. simpl. lia.
  - intros Hne. destruct Hin as [Hin | [? _]]; [| done].
    unfold Home.length_of in Hin. fold trips in Hin.
    destruct (lookup_lt_is_Some_2 trips (Z.to_nat idx)) as [cur Hcur]; [lia |].
    assert (Hcur' : LeafletMap.currentTrip trips idx = Some cur)
      by (apply js_index_Some; split; [lia | done]).
    destruct (path_of_current _ _ _ Hcur') as (st & Hpath & _).
    exists cur, st. split; [done |]. split; [done |].
    unfold view_effect. rewrite (getMapBounds_leg _ _ _ _ Hpath).
    destruct trips; [done |]. done.
Qed.

Lemma page_always_has_leg_witness :
  let s := Home.run [Home.DeleteTrip "1"; Home.DeleteTrip "2"] Home.initial in
  LeafletMap.getMapBounds (Home.trips s) (Home.currentTripIndex s)
    = Ok LeafletMap.default_viewport.
Proof.
  intros s.
  refine (proj1 (proj1 (page_always_has_leg
            [Home.DeleteTrip "1"; Home.DeleteTrip "2"] _) _)).
  - repeat split.
  - reflexivity.
Defined.

(** ** The timeline controls *)

Lemma state_cursor_changed (s : Home.State) (i : Z) :
  i ≠ Home.currentTripIndex s → Home.setCurrentTripIndex i s ≠ s.
Proof.
  intros Hne Heq. apply Hne.
  by apply (f_equal Home.currentTripIndex) in Heq.
Qed.

(** X10. The Next and Previous buttons of the timeline are disabled
    exactly in the states where the page's handler would change
    nothing, and the arrow keys run the same two handlers. *)
Theorem buttons_match_handlers (s : Home.State) :
  (TimelineControls.next_disabled (Home.currentTripIndex s) (Home.length_of s)
     = true ↔ Home.handleNext s = s) ∧
  (TimelineControls.previous_disabled (Home.currentTripIndex s) = true
     ↔ Home.handlePrevious s = s) ∧
  Home.handleKeyPress "ArrowRight" s = Home.handleNext s ∧
  Home.handleKeyPress "ArrowLeft" s = Home.handlePrevious s.
Proof.
  unfold TimelineControls.next_disabled, TimelineControls.previous_disabled,
    Home.handleNext, Home.handlePrevious.
  split; [| split; [| done]].
  - case_bool_decide; case_decide; try lia; split; try done.
    intros Heq. by apply state_cursor_changed in Heq; [| lia].
  - case_bool_decide; case_decide; try lia; split; try done.
    intros Heq. by apply state_cursor_changed in Heq; [| lia].
Qed.

Lemma buttons_match_handlers_witness :
  Home.handleNext (Home.handleNext Home.initial) = Home.handleNext Home.initial.
Proof.
  apply (proj1 (proj1 (buttons_match_handlers (Home.handleNext Home.initial)))).
  reflexivity.
Defined.

Local Open Scope Q_scope.

(** X11. The progress bar shows a share of the journey between 0 and
    100 per cent for a cursor in range, reaching exactly 100 at the last
    trip and only there; with no trips it shows 0 and divides nothing. *)
Theorem progress_bounds :
  (∀ i n : Z, (0 <= i < n)%Z →
     0 < TimelineControls.progress i n ∧
     TimelineControls.progress i n <= 100 ∧
     (TimelineControls.progress i n == 100 ↔ i = (n - 1)%Z)) ∧
  (∀ i n : Z, (n <= 0)%Z → TimelineControls.progress i n = 0).
Proof.
  split.
  - intros i n Hin. unfold TimelineControls.progress. case_decide; [| lia].
    assert (Hb : 0 < inject_Z n)
      by (change 0 with (inject_Z 0); rewrite <- Zlt_Qlt; lia).
    assert (Ha : 0 < inject_Z (i + 1))
      by (change 0 with (inject_Z 0); rewrite <- Zlt_Qlt; lia).
    assert (Hab : inject_Z (i + 1) <= inject_Z n)
      by (rewrite <- Zle_Qle; lia).
    assert (Hq : inject_Z (i + 1) ==
                 inject_Z (i + 1) / inject_Z n * inject_Z n)
      by (field; lra).
    set (q := inject_Z (i + 1) / inject_Z n) in *.
    assert (Hq0 : 0 < q) by (apply Qlt_shift_div_l; lra).
    assert (Hq1 : q <= 1) by (apply Qle_shift_div_r; lra).
    split; [lra |]. split; [lra |]. split.
    + intros H100. assert (Hone : q == 1) by lra.
      rewrite Hone, Qmult_1_l in Hq.
      apply (proj1 (inject_Z_injective _ _)) in Hq. lia.
    + intros ->. assert (Hone : q == 1).
      { unfold q. replace (n - 1 + 1)%Z with n by lia. field. lra. }
      lra.
  - intros i n Hn. unfold TimelineControls.progress. case_decide; [lia | done].
Qed.

Lemma progress_bounds_witness :
  TimelineControls.progress 1 2 == 100 ∧ 0 < TimelineControls.progress 0 2.
Proof.
  split.
  - apply (proj2 (proj2 (proj1 progress_bounds 1%Z 2%Z ltac:(lia)))).
    reflexivity.
  - apply (proj1 (proj1 progress_bounds 0%Z 2%Z ltac:(lia))).
Defined.

(** ** The projection of the simple world map *)




Local Close Scope Q_scope.

(** ** The form of the add-trip dialog *)

(** X13. Toggling a traveler flips whether the name is selected and
    leaves every other name as it was; a selection without repetitions
    stays without repetitions; and toggling a name that was not
    selected twice gives back the same list. *)
Theorem toggle_traveler_flips (x : string) (l : list string) :
  (x ∈ AddTripModal.toggleTraveler x l ↔ x ∉ l) ∧
  (∀ y, y ≠ x → (y ∈ AddTripModal.toggleTraveler x l ↔ y ∈ l)) ∧
  (NoDup l → NoDup (AddTripModal.toggleTraveler x l)) ∧
  (x ∉ l →
   AddTripModal.toggleTraveler x (AddTripModal.toggleTraveler x l) = l).
Proof.
  unfold AddTripModal.toggleTraveler, includes.
  split; [| split; [| split]].
  - case_bool_decide as Hin.
    + rewrite list_elem_of_filter. split; [by intros [? _] | done].
    + rewrite elem_of_app, list_elem_of_singleton. split; [done | by right].
  - intros y Hne. case_bool_decide as Hin.
    + rewrite list_elem_of_filter. split; [by intros [_ ?] | done].
    + rewrite elem_of_app, list_elem_of_singleton.
      split; [by intros [? | ?] | by left].
  - intros Hnd. case_bool_decide as Hin.
    + eapply sublist_NoDup; [done | apply sublist_filter].
    + apply NoDup_app. split; [done |]. split; [| apply NoDup_singleton].
      by intros y Hy ->%list_elem_of_singleton.
  - intros Hout. rewrite (bool_decide_eq_false_2 _ Hout).
    rewrite bool_decide_eq_true_2
      by (apply elem_of_app; right; by apply list_elem_of_singleton).
    rewrite filter_app, filter_absent by done.
    rewrite filter_cons_False by (by intros ?). by rewrite app_nil_r.
Qed.

Lemma toggle_traveler_flips_witness :
  AddTripModal.toggleTraveler "Celia"
    (AddTripModal.toggleTraveler "Celia" ["You"]) = ["You"].
Proof.
  apply (proj2 (proj2 (proj2 (toggle_traveler_flips "Celia" ["You"])))).
  by intros [=]%list_elem_of_singleton.
Defined.

(** ** The map's layers over effects and callbacks *)

Lemma hook_effect_cases (map L : bool) (s e : Coord) (isActive : bool)
    (w : World) :
  AnimatedJourneyLine.useLeafletComponent map L s e isActive w = (None, w) ∨
  (map = true ∧ L = true ∧ isActive = true ∧
   let r := mkRun s e (clock w) (nextId w) (S (nextId w)) in
   AnimatedJourneyLine.useLeafletComponent map L s e isActive w =
     (Some r,
      exec (AnimatedJourneyLine.animate r)
        (mkWorld
           (<[S (nextId w) := mkLayer MarkerLayer None [s] None]>
              (<[nextId w := mkLayer PolylineLayer None [s; s] None]>
                 (layers w)))
           ({[S (nextId w)]} ∪ ({[nextId w]} ∪ onMap w))
           (clock w) (pending w) (S (S (nextId w)))))).
Proof.
  unfold AnimatedJourneyLine.useLeafletComponent.
  destruct map, isActive, L; simpl; try by left.
  right. repeat split; try done.
  unfold mbind, M_bind, mret, M_ret, addTo, Date_now, exec. simpl.
  by destruct (AnimatedJourneyLine.animate _ _) as [[] ?].
Qed.

Lemma hook_animate_frame (r : Run) (w : World) :
  onMap (exec (AnimatedJourneyLine.animate r) w) = onMap w ∧
  nextId (exec (AnimatedJourneyLine.animate r) w) = nextId w.
Proof. unfold_world. simpl. by destruct (Qlt_le_dec _ 1). Qed.

(** X15. An effect and its cleanup, back to back, leave on the map
    what was there before: the hook restores the map's layers exactly;
    the LeafletMap effect restores them except for the layers of class
    animated-journey, which it sweeps when it starts. *)
Theorem effect_cleanup_round_trip :
  (∀ s e w r w',
     layers_allocated w →
     AnimatedJourneyLine.useLeafletComponent true true s e true w
       = (Some r, w') →
     onMap w' = {[marker r]} ∪ ({[polyline r]} ∪ onMap w) ∧
     onMap (exec (AnimatedJourneyLine.cleanup r) w') = onMap w) ∧
  (∀ trips idx mapInstance L w r w1,
     layers_allocated w →
     activate None trips idx mapInstance L w = (Some r, w1) →
     onMap (exec (LeafletMap.cleanup r) w1) =
       filter (λ i, is_animated_journey (layers w) i = false) (onMap w)).
Proof.
  split.
  - intros s e w r w' Hwf Hhook.
    destruct (hook_effect_cases true true s e true w)
      as [Hnone | (_ & _ & _ & Hsome)]; [congruence |].
    simpl in Hsome. rewrite Hsome in Hhook.
    assert (Hfresh : (nextId w ∉ onMap w) ∧ (S (nextId w) ∉ onMap w)).
    { split; intros Hin; destruct (Hwf _ Hin); lia. }
    injection Hhook as <- <-. rewrite hook_cleanup_removes. simpl.
    rewrite (proj1 (hook_animate_frame _ _)). simpl.
    split; [done | set_solver].
  - intros trips idx mapInstance L w r w1 Hwf Hact.
    destruct (activate_cases None trips idx mapInstance L w)
      as [Hnone | (s & e & _ & Hsome)]; [congruence |].
    rewrite Hsome in Hact.
    assert (Hfresh : (nextId w ∉ onMap w) ∧ (S (nextId w) ∉ onMap w)).
    { split; intros Hin; destruct (Hwf _ Hin); lia. }
    injection Hact as <- <-. rewrite cleanup_removes. simpl.
    set_solver.
Qed.

Lemma effect_cleanup_round_trip_witness :
  let a := AnimatedJourneyLine.useLeafletComponent true true
             (coords_of Page.losAngeles) (coords_of Page.houston) true
             empty_world in
  onMap (exec (AnimatedJourneyLine.cleanup
                 (mkRun (coords_of Page.losAngeles) (coords_of Page.houston)
                        0 0 1)) (snd a)) = onMap empty_world.
Proof.
  intros a.
  refine (proj2 (proj1 effect_cleanup_round_trip
            (coords_of Page.losAngeles) (coords_of Page.houston)
            empty_world _ (snd a) _ _)).
  - by intros i ?%elem_of_empty.
  - by vm_compute.
Defined.

Lemma callback_own_layers (cb : Callback) (w : World) (i : nat) :
  i ≠ polyline (run_of cb) → i ≠ marker (run_of cb) →
  layers (exec (run_callback cb) w) !! i = layers w !! i ∧
  (i ∈ onMap (exec (run_callback cb) w) ↔ i ∈ onMap w).
Proof.
  intros Hp Hm. destruct cb; simpl in Hp, Hm; unfold_world; simpl;
    repeat match goal with
    | |- context [Qlt_le_dec ?x ?y] => destruct (Qlt_le_dec x y); simpl
    | |- context [bool_decide ?P] => destruct (bool_decide P); simpl
    end;
    rewrite ?lookup_alter_ne by done; (split; [done | set_solver]).
Qed.

Lemma successive_runs (prev : option Run) (trips trips' : list Trip)
    (idx idx' : Z) (mapInstance L mapInstance' L' : bool)
    (w0 w1 w3 : World) (es : list Event) (r1 r2 : Run) :
  activate prev trips idx mapInstance L w0 = (Some r1, w1) →
  activate (Some r1) trips' idx' mapInstance' L' (run_events es w1)
    = (Some r2, w3) →
  marker r1 = S (polyline r1) ∧ polyline r2 = S (S (polyline r1)) ∧
  marker r2 = S (S (S (polyline r1))).
Proof.
  intros H1 H2.
  destruct (activate_cases prev trips idx mapInstance L w0)
    as [Hnone | (s & e & _ & Hsome)]; [congruence |].
  rewrite Hsome in H1.
  destruct (run_events_frame es w1) as (_ & Hid & _ & _).
  destruct (activate_cases (Some r1) trips' idx' mapInstance' L'
              (run_events es w1)) as [Hnone | (s' & e' & _ & Hsome')];
    [congruence |].
  rewrite Hsome', cleanup_removes in H2.
  injection H1 as <- <-. injection H2 as <- <-. simpl in *. lia.
Qed.

(** X16. A callback moves only the polyline and the marker of its own
    run.  So, after a leg change, the callbacks the previous leg left
    pending, which nothing cancels, cannot move the new leg's polyline
    or marker, nor take them off the map. *)
Theorem stale_callbacks_harmless
    (prev : option Run) (trips trips' : list Trip) (idx idx' : Z)
    (mapInstance L mapInstance' L' : bool) (w0 w1 w3 : World)
    (es : list Event) (r1 r2 : Run) :
  activate prev trips idx mapInstance L w0 = (Some r1, w1) →
  activate (Some r1) trips' idx' mapInstance' L' (run_events es w1)
    = (Some r2, w3) →
  ∀ cb w, run_of cb = r1 →
    let w' := exec (run_callback cb) w in
    layers w' !! polyline r2 = layers w !! polyline r2 ∧
    layers w' !! marker r2 = layers w !! marker r2 ∧
    (polyline r2 ∈ onMap w' ↔ polyline r2 ∈ onMap w) ∧
    (marker r2 ∈ onMap w' ↔ marker r2 ∈ onMap w).
Proof.
  intros H1 H2 cb w Hcb w'.
  destruct (successive_runs _ _ _ _ _ _ _ _ _ _ _ _ _ _ _ H1 H2)
    as (Hm1 & Hp2 & Hm2).
  destruct (callback_own_layers cb w (polyline r2)) as [Hl1 Ho1];
    [rewrite Hcb; lia | rewrite Hcb; lia |].
  destruct (callback_own_layers cb w (marker r2)) as [Hl2 Ho2];
    [rewrite Hcb; lia | rewrite Hcb; lia |].
  done.
Qed.

Lemma stale_callbacks_harmless_witness :
  let r1 := mkRun (coords_of Page.losAngeles) (coords_of Page.lasVegas) 0 0 1 in
  let w1 := snd (activate None Page.sampleTrips 0 true true empty_world) in
  let w3 := snd (activate (Some r1) Page.sampleTrips 1 true true w1) in
  layers (exec (run_callback (LeafletMap_start r1)) (advance 100 w3)) !! 3%nat
    = layers (advance 100 w3) !! 3%nat.
Proof.
  intros r1 w1 w3.
  refine (proj1 (proj2 (stale_callbacks_harmless None Page.sampleTrips
    Page.sampleTrips 0 1 true true true true empty_world w1 w3 [] r1
    (mkRun (coords_of Page.losAngeles) (coords_of Page.houston) 0 2 3)
    _ _ (LeafletMap_start r1) (advance 100 w3) eq_refl))).
  - by vm_compute.
  - by vm_compute.
Defined.

(** ** One animation from start to rest *)

Lemma fire_head (w : World) (p : Pending) (ps : list Pending) :
  pending w = p :: ps → due p <= clock w →
  fire 0 w = Some (exec (run_callback (callback p))
                     (mkWorld (layers w) (onMap w) (clock w) ps (nextId w))).
Proof.
  intros Hp Hdue. unfold fire. rewrite Hp. simpl. by case_decide.
Qed.

Lemma progress_running (t0 now : Z) :
  now < t0 + 2500 → (LeafletMap.animationProgress t0 now < 1)%Q.
Proof.
  intros Hlt. unfold LeafletMap.animationProgress.
  assert (Hx : (inject_Z (now - t0) / inject_Z LeafletMap.animationDuration
                < 1)%Q).
  { apply Qlt_shift_div_r; [reflexivity |]. rewrite Qmult_1_l.
    rewrite <- Zlt_Qlt. unfold LeafletMap.animationDuration. lia. }
  destruct (Q.min_spec
    (inject_Z (now - t0) / inject_Z LeafletMap.animationDuration) 1)
    as [[_ ->] | [Hle ->]]; [exact Hx | lra].
Qed.

Lemma animate_running (r : Run) (w : World) :
  clock w < startTime r + 2500 →
  let w' := exec (LeafletMap.animate r) w in
  pending w' =
    pending w ++ [mkPending (LeafletMap_animate r) AnimationFrame (clock w)] ∧
  onMap w' = onMap w ∧ clock w' = clock w ∧
  (∀ i, is_Some (layers w !! i) → is_Some (layers w' !! i)).
Proof.
  intros Hlt w'. pose proof (progress_running _ _ Hlt) as Hrun.
  assert (Hsome : ∀ i, is_Some (layers w !! i) → is_Some (layers w' !! i)).
  { intros i Hi.
    destruct (callback_frame (LeafletMap_animate r) w) as (_ & _ & _ & _ & Hrot).
    apply fmap_is_Some with (f := rotation). fold w'. rewrite Hrot.
    by apply fmap_is_Some. }
  revert Hsome. unfold w'. unfold_world. simpl.
  destruct (Qlt_le_dec _ 1) as [_ | Hge]; [| lra]. simpl. done.
Qed.

Lemma hide_world (r : Run) (w : World) :
  exec (LeafletMap.hide r) w =
    mkWorld (layers w) (onMap w ∖ {[marker r]}) (clock w) (pending w)
            (nextId w).
Proof.
  assert (Hout : ∀ (X : gset nat) i, i ∉ X → X ∖ {[i]} = X) by set_solver.
  destruct w as [ls shown now ps n]. unfold_world. simpl.
  destruct (bool_decide_reflect (marker r ∈ shown)) as [Hm | Hm]; simpl;
    [done | by rewrite (Hout _ _ Hm)].
Qed.

Lemma fire_first (w : World) (p : Pending) :
  pending w = [p] → due p <= clock w →
  step (Fire 0) w =
    exec (run_callback (callback p))
         (mkWorld (layers w) (onMap w) (clock w) [] (nextId w)).
Proof. intros Hp Hdue. simpl. by rewrite (fire_head w p []). Qed.

Lemma running_phase (r : Run) (w : World) (p : Pending) (d : N) :
  pending w = [p] → run_callback (callback p) = LeafletMap.animate r →
  due p <= clock w + Z.of_N d → clock w + Z.of_N d < startTime r + 2500 →
  let w' := step (Fire 0) (advance d w) in
  pending w' = [mkPending (LeafletMap_animate r) AnimationFrame
                          (clock w + Z.of_N d)] ∧
  onMap w' = onMap w ∧ clock w' = clock w + Z.of_N d ∧
  (∀ i, is_Some (layers w !! i) → is_Some (layers w' !! i)).
Proof.
  intros Hp Hcb Hdue Hrun w'. unfold w'.
  rewrite (fire_first (advance d w) p) by done. rewrite Hcb.
  apply (animate_running r
           (mkWorld (layers w) (onMap w) (clock w + Z.of_N d) [] (nextId w))).
  done.
Qed.

Lemma settling_phase (r : Run) (w : World) (p : Pending) (d : N) :
  pending w = [p] → run_callback (callback p) = LeafletMap.animate r →
  due p <= clock w + Z.of_N d → startTime r + 2500 <= clock w + Z.of_N d →
  polyline r ≠ marker r → is_Some (layers w !! polyline r) →
  let w' := step (Fire 0) (advance d w) in
  pending w' = [mkPending (LeafletMap_hide r) (Timer 800)
                          (clock w + Z.of_N d + 800)] ∧
  onMap w' = onMap w ∧ clock w' = clock w + Z.of_N d ∧
  ∃ c, latlngs <$> layers w' !! polyline r = Some [startCoords r; c] ∧
       coord_eq c (endCoords r).
Proof.
  intros Hp Hcb Hdue Hdone Hne [line Hline] w'. unfold w'.
  rewrite (fire_first (advance d w) p) by done. rewrite Hcb.
  destruct (leafletmap_settles r
    (mkWorld (layers w) (onMap w) (clock w + Z.of_N d) [] (nextId w)) Hdone)
    as (Hpend & Hon & _ & Hpoly & _).
  destruct (callback_frame (LeafletMap_animate r)
    (mkWorld (layers w) (onMap w) (clock w + Z.of_N d) [] (nextId w)))
    as (_ & _ & Hclock & _).
  split; [exact Hpend |]. split; [exact Hon |]. split; [exact Hclock |].
  exact (Hpoly line Hne Hline).
Qed.

Lemma resting_phase (r : Run) (w : World) (p : Pending) (d : N) :
  pending w = [p] → callback p = LeafletMap_hide r →
  due p <= clock w + Z.of_N d →
  step (Fire 0) (advance d w) =
    mkWorld (layers w) (onMap w ∖ {[marker r]}) (clock w + Z.of_N d) []
            (nextId w).
Proof.
  intros Hp Hcb Hdue.
  rewrite (fire_first (advance d w) p) by done. rewrite Hcb.
  apply hide_world.
Qed.

(** X17. Left alone, an animation of the LeafletMap effect runs to
    rest: the start timer, one frame after the duration has elapsed and
    the grace timer, each run once it is due, leave no callback pending,
    the polyline on the map drawn from the leg's start to its end, and
    the marker off the map. *)
Theorem animation_runs_to_rest (trips : list Trip) (idx : Z)
    (mapInstance L : bool) (w0 w1 : World) (r : Run) (d1 d2 d3 : N) :
  pending w0 = [] →
  activate None trips idx mapInstance L w0 = (Some r, w1) →
  (100 <= d1 < 2500)%N → (2500 <= d1 + d2)%N → (800 <= d3)%N →
  let w := run_events [Advance d1; Fire 0; Advance d2; Fire 0;
                       Advance d3; Fire 0] w1 in
  pending w = [] ∧
  polyline r ∈ onMap w ∧ (marker r ∉ onMap w) ∧
  clock w = startTime r + Z.of_N (d1 + d2 + d3) ∧
  ∃ c, latlngs <$> layers w !! polyline r = Some [startCoords r; c] ∧
       coord_eq c (endCoords r).
Proof.
  intros Hidle Hact Hd1 Hd2 Hd3.
  destruct (activate_cases None trips idx mapInstance L w0)
    as [Hnone | (s & e & _ & Hsome)]; [congruence |].
  assert (Hr : r = fst (started s e w0)) by congruence.
  assert (Hw : w1 = snd (started s e w0)) by congruence.
  assert (Hp : polyline r = nextId w0) by (by rewrite Hr).
  assert (Hm : marker r = S (nextId w0)) by (by rewrite Hr).
  assert (Ht0 : startTime r = clock w1) by (by rewrite Hr, Hw).
  assert (Hpend : pending w1 =
            [mkPending (LeafletMap_start r) (Timer 100) (clock w1 + 100)]).
  { rewrite Hw, Hr. simpl. by rewrite Hidle. }
  assert (HonP : polyline r ∈ onMap w1).
  { rewrite Hw, Hp. apply started_onMap. by right; left. }
  assert (HlayerP : is_Some (layers w1 !! polyline r)).
  { rewrite Hw, Hp. simpl. rewrite lookup_insert_ne by lia.
    by rewrite lookup_insert_eq. }
  clear Hact Hsome Hr Hw Hidle.
  change (run_events _ w1) with
    (step (Fire 0) (advance d3
       (step (Fire 0) (advance d2 (step (Fire 0) (advance d1 w1)))))).
  destruct (running_phase r w1 _ d1 Hpend eq_refl)
    as (HpendB & HonB & HclockB & HsomeB); [simpl; lia | lia |].
  set (wB := step (Fire 0) (advance d1 w1)) in *.
  destruct (settling_phase r wB _ d2 HpendB eq_refl)
    as (HpendD & HonD & HclockD & c & Hc & Hend);
    [simpl; lia | lia | lia | by apply HsomeB |].
  set (wD := step (Fire 0) (advance d2 wB)) in *.
  rewrite (resting_phase r wD _ d3 HpendD eq_refl) by (simpl; lia).
  cbn [pending onMap clock layers].
  split; [done |]. rewrite HonD, HonB.
  split; [apply elem_of_difference; split;
            [done | rewrite elem_of_singleton; lia] |].
  split; [set_solver |]. split; [lia |].
  exists c. split; [exact Hc | exact Hend].
Qed.

Lemma animation_runs_to_rest_witness :
  let a := activate None Page.sampleTrips 1 true true empty_world in
  pending (run_events [Advance 100; Fire 0; Advance 2400; Fire 0;
                       Advance 800; Fire 0] (snd a)) = [].
Proof.
  intros a.
  refine (proj1 (animation_runs_to_rest Page.sampleTrips 1 true true
            empty_world (snd a)
            (mkRun (coords_of Page.losAngeles) (coords_of Page.houston) 0 0 1)
            100 2400 800 eq_refl _ _ _ _)).
  - by vm_compute.
  - by vm_compute.
  - by vm_compute.
  - by vm_compute.
Defined.
